(* ===================================================================== *)
(* Legal Risk Analysis front end: a shallow embedding of the client      *)
(* logic (services/websocket.js, App.js, components/*.js) and the        *)
(* properties of its specification.                                      *)
(* ===================================================================== *)

From Stdlib Require Import Ascii String List Arith Lia Bool.
From stdpp Require Import base option list strings gmap fin_maps.

Set Warnings "-abstract-large-number".

Open Scope string_scope.
Open Scope list_scope.

(* --------------------------------------------------------------------- *)
(* Wire data.  A JavaScript object is a record whose optional fields are *)
(* [option]s: [None] is [undefined].                                     *)
(* --------------------------------------------------------------------- *)

Module Protocol.

(* An element of [context.documents]. *)
Record documentInfo := DocumentInfo {
  doc_id : nat;
  significant_pages : option (list nat) }.

(* An element of [context.pages]. *)
Record pageInfo := PageInfo { page_num : nat }.

(* The enrichment [context] of an action. *)
Record actionContext := ActionContext {
  tool : option string;
  documents : option (list documentInfo);
  pages : option (list pageInfo);
  file_path : option string }.

(* One element of [approval_required.actions]. *)
Record action := Action {
  tool_name : option string;
  context : option actionContext }.

(* A decision on one action; [edited_arguments] is the parsed JSON
   value, kept as text. *)
Record decision := Decision {
  decision_kind : string;
  edited_arguments : option string }.

(* A JavaScript array that may have holes: [None] is a hole, read as
   [undefined] and serialised as [null]. *)
Definition array (A : Type) : Type := list (option A).

(* A frame after JSON.parse or before JSON.stringify, and the objects
   the connection manager builds for its own events. *)
Record payload := Payload {
  type : option string;
  sessionId : option string;
  message : option string;
  content : option string;
  actions : option (list action);
  decisions : option (array decision) }.

Definition emptyPayload : payload := Payload None None None None None None.

(* JavaScript truthiness of a possibly undefined string. *)
Definition truthy (s : option string) : bool :=
  match s with
  | Some "" => false
  | Some _ => true
  | None => false
  end.

(* [a || b] on possibly undefined strings. *)
Definition or_else (a : option string) (b : string) : option string :=
  if truthy a then a else Some b.

End Protocol.

(* --------------------------------------------------------------------- *)
(* services/websocket.js: class AgentWebSocket.                          *)
(*                                                                       *)
(* The manager's methods mutate [this], talk to browser objects (the     *)
(* transports created by [new WebSocket], the timer queue, the console)  *)
(* and may let a handler's exception escape.  They are embedded in a     *)
(* state-and-exception monad over a [world] holding all of these.        *)
(* Handlers are the subscribers' functions: a handler acts on the        *)
(* subscriber's own state [W], may call the manager's methods while it   *)
(* runs, and either returns or throws.                                   *)
(* --------------------------------------------------------------------- *)

Module WS.
Import Protocol.

Inductive readyState := CONNECTING | OPEN | CLOSING | CLOSED.

Inductive outcome := Returned | Threw.

(* Observable effects, in program order. *)
Inductive effect :=
| ConsoleLog
| ConsoleError
| NewWebSocket (sid : nat) (url : string)
| SetTimeout (delay : nat)
| Notify (type : string)                      (* notifyHandlers entered *)
| Invoke (h : nat) (data : payload)           (* a handler is called *)
| TransportSend (sid : nat) (data : payload)  (* ws.send(JSON.stringify m) *)
| TransportClose (sid : nat).                 (* ws.close() *)

(* A call of one of the manager's methods made by a subscriber function
   of type [H] while it runs: [connect()], [close()], [send(m)],
   [on(t, h)], or the cleanup function returned by [on(t, h)]. *)
Inductive method (H : Type) :=
| callConnect
| callClose
| callSend (m : payload)
| callOn (t : string) (h : H)
| callCleanup (t : string) (h : H).
Arguments callConnect {H}.
Arguments callClose {H}.
Arguments callSend {H} m.
Arguments callOn {H} t h.
Arguments callCleanup {H} t h.

Section Manager.
Context {W : Type}.

(* A subscriber function; [hid] is its identity ([indexOf] compares
   functions by reference).  Called with a payload in a state of the
   subscriber, it gives the subscriber's new state, the calls it makes
   to the manager, in order, and how it ends. *)
#[warnings="-register-all"]
Inductive handler := Handler {
  hid : nat;
  hcall : payload -> W -> W * list (method handler) * outcome }.

Record AgentWebSocket := Build {
  this_sessionId : string;
  ws : option nat;
  messageHandlers : gmap string (list handler);
  isConnecting : bool;
  reconnectAttempts : nat;
  maxReconnectAttempts : nat }.

Record world := World {
  this : AgentWebSocket;
  sockets : list readyState;   (* every transport created so far *)
  timers : list nat;           (* pending [() => this.connect()] *)
  app : W;                     (* the subscribers' state *)
  trace : list effect }.

Inductive result (A : Type) := Val (a : A) | Exn.
Arguments Val {A} a.
Arguments Exn {A}.

Definition M (A : Type) : Type := world -> world * result A.

Definition ret {A} (a : A) : M A := fun w => (w, Val a).
Definition bind {A B} (c : M A) (k : A -> M B) : M B :=
  fun w => match c w with
           | (w', Val a) => k a w'
           | (w', Exn) => (w', Exn)
           end.
Definition try_catch (c : M unit) (h : M unit) : M unit :=
  fun w => match c w with
           | (w', Val _) => (w', Val tt)
           | (w', Exn) => h w'
           end.

Notation "'let*' x ':=' c 'in' k" := (bind c (fun x => k))
  (at level 10, x name, c at level 100, k at level 200).
Notation "c >> k" := (bind c (fun _ => k))
  (at level 100, k at level 200, right associativity).

Definition throw : M unit := fun w => (w, Exn).
Definition gets {A} (f : world -> A) : M A := fun w => (w, Val (f w)).
Definition effect_ (e : effect) : M unit :=
  fun w => (World (this w) (sockets w) (timers w) (app w) (trace w ++ [e]), Val tt).
Definition set_this (f : AgentWebSocket -> AgentWebSocket) : M unit :=
  fun w => (World (f (this w)) (sockets w) (timers w) (app w) (trace w), Val tt).
Definition set_sockets (f : list readyState -> list readyState) : M unit :=
  fun w => (World (this w) (f (sockets w)) (timers w) (app w) (trace w), Val tt).
Definition set_timers (f : list nat -> list nat) : M unit :=
  fun w => (World (this w) (sockets w) (f (timers w)) (app w) (trace w), Val tt).
Definition set_app (a : W) : M unit :=
  fun w => (World (this w) (sockets w) (timers w) a (trace w), Val tt).

Definition with_ws (v : option nat) (t : AgentWebSocket) :=
  Build (this_sessionId t) v (messageHandlers t) (isConnecting t)
        (reconnectAttempts t) (maxReconnectAttempts t).
Definition with_handlers (v : gmap string (list handler)) (t : AgentWebSocket) :=
  Build (this_sessionId t) (ws t) v (isConnecting t)
        (reconnectAttempts t) (maxReconnectAttempts t).
Definition with_isConnecting (v : bool) (t : AgentWebSocket) :=
  Build (this_sessionId t) (ws t) (messageHandlers t) v
        (reconnectAttempts t) (maxReconnectAttempts t).
Definition with_attempts (v : nat) (t : AgentWebSocket) :=
  Build (this_sessionId t) (ws t) (messageHandlers t) (isConnecting t)
        v (maxReconnectAttempts t).

(* Array.prototype.forEach on an array that the callback leaves alone. *)
Fixpoint forEach {A} (l : list A) (f : A -> M unit) : M unit :=
  match l with
  | [] => ret tt
  | x :: l' => f x >> forEach l' f
  end.

(* [this.ws && this.ws.readyState === WebSocket.OPEN] *)
Definition ws_is_open (w : world) : bool :=
  match ws (this w) with
  | Some sid => match sockets w !! sid with
                | Some OPEN => true
                | _ => false
                end
  | None => false
  end.

Definition constructor (sessionId : string) : AgentWebSocket :=
  Build sessionId None ∅ false 0 5.

(* [this.messageHandlers.get(type) || []] *)
Definition handlers_for (type : string) (w : world) : list handler :=
  default [] (messageHandlers (this w) !! type).

Definition connect : M unit :=
  let* busy := gets (fun w => isConnecting (this w) || ws_is_open w) in
  if busy then ret tt
  else
    set_this (with_isConnecting true) >>
    let* sid := gets (fun w => length (sockets w)) in
    let* url := gets (fun w => "ws://localhost:8000/ws/" +:+ this_sessionId (this w)) in
    effect_ (NewWebSocket sid url) >>
    set_sockets (fun ss => ss ++ [CONNECTING]) >>
    set_this (with_ws (Some sid)).

(* [on(messageType, handler)]; the returned cleanup closure is
   [unsubscribe messageType handler]. *)
Definition on (messageType : string) (handler_ : handler) : M unit :=
  set_this (fun t =>
    match messageHandlers t !! messageType with
    | None => with_handlers (<[messageType := []]> (messageHandlers t)) t
    | Some _ => t
    end) >>
  set_this (fun t =>
    with_handlers
      (<[messageType := default [] (messageHandlers t !! messageType) ++ [handler_]]>
         (messageHandlers t)) t).

(* [handlers.indexOf(handler)] *)
Fixpoint indexOf (handlers : list handler) (h : handler) : option nat :=
  match handlers with
  | [] => None
  | x :: rest => if Nat.eqb (hid x) (hid h) then Some 0
                 else option_map S (indexOf rest h)
  end.

(* [handlers.splice(index, 1)] *)
Fixpoint splice1 {A} (l : list A) (index : nat) : list A :=
  match l, index with
  | [], _ => []
  | _ :: rest, 0 => rest
  | x :: rest, S i => x :: splice1 rest i
  end.

Definition unsubscribe (messageType : string) (handler_ : handler) : M unit :=
  set_this (fun t =>
    match messageHandlers t !! messageType with
    | Some handlers =>
        match indexOf handlers handler_ with
        | Some index =>
            with_handlers (<[messageType := splice1 handlers index]> (messageHandlers t)) t
        | None => t
        end
    | None => t
    end).

Definition send (message_ : payload) : M unit :=
  let* open := gets ws_is_open in
  if open then
    let* sid := gets (fun w => default 0 (ws (this w))) in
    effect_ (TransportSend sid message_)
  else
    effect_ ConsoleError.

(* The transport's own [close()]: the close event comes later. *)
Definition transport_close (sid : nat) : M unit :=
  effect_ (TransportClose sid) >>
  set_sockets (fun ss =>
    match ss !! sid with
    | Some CONNECTING | Some OPEN => <[sid := CLOSING]> ss
    | _ => ss
    end).

Definition close : M unit :=
  let* cur := gets (fun w => ws (this w)) in
  match cur with
  | Some sid => transport_close sid >> set_this (with_ws None)
  | None => ret tt
  end.

(* ---- Calling the subscribers. ---- *)

(* A call made by a subscriber from inside its function. *)
Definition perform (c : method handler) : M unit :=
  match c with
  | callConnect => connect
  | callClose => close
  | callSend m => send m
  | callOn t h => on t h
  | callCleanup t h => unsubscribe t h
  end.

(* [handler(data)]: the subscriber's state changes, the calls the
   function makes to the manager are carried out, and the function
   returns or throws. *)
Definition run_body (h : handler) (data : payload) : M unit :=
  fun w => let '(a, asked, o) := hcall h data (app w) in
           (fst ((set_app a >> forEach asked perform) w),
            match o with Returned => Val tt | Threw => Exn end).
Definition call (h : handler) (data : payload) : M unit :=
  effect_ (Invoke (hid h) data) >> run_body h data.

(* [handlers.forEach(f)] on the array kept for [type], which the
   subscribers called by [f] may change while the loop runs: the loop
   visits the indices below the length the array had when it started,
   [k] being the next one and [n] the number left, and skips an index
   the array no longer has. *)
Fixpoint forEachLive (type : string) (f : handler -> M unit) (k n : nat) : M unit :=
  match n with
  | 0 => ret tt
  | S n' =>
      let* handlers := gets (handlers_for type) in
      match handlers !! k with
      | Some h => f h >> forEachLive type f (S k) n'
      | None => forEachLive type f (S k) n'
      end
  end.

Definition notifyHandlers (type : string) (data : payload) : M unit :=
  effect_ (Notify type) >>
  let* len := gets (fun w => length (handlers_for type w)) in
  forEachLive type (fun handler => call handler data) 0 len.

Definition handleMessage (message : payload) : M unit :=
  effect_ ConsoleLog >>
  match type message with
  | Some t =>
      let* len := gets (fun w => length (handlers_for t w)) in
      forEachLive t (fun handler =>
        try_catch (call handler message) (effect_ ConsoleError)) 0 len
  | None => ret tt
  end.

Definition onopen : M unit :=
  effect_ ConsoleLog >>
  set_this (with_isConnecting false) >>
  set_this (with_attempts 0) >>
  let* sid := gets (fun w => this_sessionId (this w)) in
  notifyHandlers "connected"
    (Payload None (Some sid) None None None None).

(* [frame] is the result of JSON.parse(event.data); [None] when it
   throws. *)
Definition onmessage (frame : option payload) : M unit :=
  try_catch
    match frame with
    | Some message => handleMessage message
    | None => throw
    end
    (effect_ ConsoleError).

Definition onerror : M unit :=
  effect_ ConsoleError >>
  notifyHandlers "error" emptyPayload.

(* The payload of the terminal event. *)
Definition connectionFailed : payload :=
  Payload None None (Some "Failed to connect after multiple attempts") None None None.

Definition onclose : M unit :=
  effect_ ConsoleLog >>
  set_this (with_isConnecting false) >>
  let* more := gets (fun w => Nat.ltb (reconnectAttempts (this w)) (maxReconnectAttempts (this w))) in
  if more then
    set_this (fun t => with_attempts (S (reconnectAttempts t)) t) >>
    effect_ ConsoleLog >>
    let* delay := gets (fun w => 2000 * reconnectAttempts (this w)) in
    effect_ (SetTimeout delay) >>
    set_timers (fun ts => ts ++ [delay])
  else
    notifyHandlers "connection_failed" connectionFailed.

(* ---- The browser's side: events delivered to the callbacks. ---- *)

Definition set_readyState (sid : nat) (s : readyState) : M unit :=
  set_sockets (fun ss => <[sid := s]> ss).

(* Transport [sid] reports that it is open / has closed. *)
Definition fire_open (sid : nat) : M unit := set_readyState sid OPEN >> onopen.
Definition fire_close (sid : nat) : M unit := set_readyState sid CLOSED >> onclose.

(* The oldest pending timer expires. *)
Definition fire_timer : M unit :=
  let* ts := gets timers in
  match ts with
  | [] => ret tt
  | _ :: rest => set_timers (fun _ => rest) >> connect
  end.

(* An event-loop turn: an exception that escapes a callback is
   reported by the browser and the state it left stays. *)
Definition turn (c : M unit) (w : world) : world := fst (c w).

(* True when the callback let an exception escape. *)
Definition escapes (c : M unit) (w : world) : bool :=
  match snd (c w) with Val _ => false | Exn => true end.

(* ---- Reading a trace. ---- *)

(* The reconnection events: a reconnect attempt is armed, or the
   terminal [connection_failed] event is emitted. *)
Definition isReconnectEvent (e : effect) : bool :=
  match e with
  | SetTimeout _ => true
  | Notify t => String.eqb t "connection_failed"
  | _ => false
  end.
Definition reconnectEvents (tr : list effect) : list effect :=
  List.filter isReconnectEvent tr.

(* The subscribers called, in order, and how often [h] was. *)
Definition invoked (tr : list effect) : list nat :=
  flat_map (fun e => match e with Invoke h _ => [h] | _ => [] end) tr.
Definition calls (h : nat) (tr : list effect) : nat :=
  count_occ Nat.eq_dec (invoked tr) h.

(* The frames handed to a transport. *)
Definition transmitted (tr : list effect) : list payload :=
  flat_map (fun e => match e with TransportSend _ m => [m] | _ => [] end) tr.


(* ---- Reading a subscriber. ---- *)

(* What a call of the subscriber does to its own state, the calls it
   makes to the manager, and how it ends. *)
Definition act (h : handler) (data : payload) (s : W) : W := fst (fst (hcall h data s)).
Definition asks (h : handler) (data : payload) (s : W) : list (method handler) :=
  snd (fst (hcall h data s)).
Definition ends (h : handler) (data : payload) (s : W) : outcome := snd (hcall h data s).

(* The subscriber never calls the manager from inside its function. *)
Definition quiet (h : handler) : Prop := forall data s, asks h data s = [].
(* The subscriber never throws / always throws. *)
Definition returns (h : handler) : Prop := forall data s, ends h data s = Returned.

(* The subscribers' state after each of [hs] has been called with
   [data], in order. *)
Definition deliver (hs : list handler) (data : payload) (s : W) : W :=
  fold_left (fun s h => act h data s) hs s.

(* What no subscriber can change, whatever it calls while it runs: the
   pending timers, the retry counter and the budget; and what it adds
   to the trace is not a reconnection event. *)
Definition spares (w w' : world) : Prop :=
  timers w' = timers w /\
  reconnectAttempts (this w') = reconnectAttempts (this w) /\
  maxReconnectAttempts (this w') = maxReconnectAttempts (this w) /\
  exists tr, trace w' = trace w ++ tr /\ reconnectEvents tr = [].

(* The subscriber never calls, from inside its function, the cleanup
   function of a subscription to [t]. *)
Definition keepsMethod (t : string) (c : method handler) : Prop :=
  match c with
  | callCleanup t' _ => t' <> t
  | _ => True
  end.
Definition keeps (t : string) (h : handler) : Prop :=
  forall data s, Forall (keepsMethod t) (asks h data s).

(* What such calls can do: the array kept for [t] grows at its end, if
   at all; the subscribers' state stays, and no subscriber is called. *)
Definition grows (t : string) (w w' : world) : Prop :=
  handlers_for t w `prefix_of` handlers_for t w' /\
  app w' = app w /\
  invoked (trace w') = invoked (trace w).

(* Neither the subscriber nor any subscriber it registers ever calls
   [send]. *)
#[warnings="-register-all"]
Inductive sendFree : handler -> Prop :=
| SendFree h :
    (forall data s, Forall sendFreeMethod (asks h data s)) -> sendFree h
with sendFreeMethod : method handler -> Prop :=
| sendFreeConnect : sendFreeMethod callConnect
| sendFreeClose : sendFreeMethod callClose
| sendFreeOn t h : sendFree h -> sendFreeMethod (callOn t h)
| sendFreeCleanup t h : sendFreeMethod (callCleanup t h).

(* ---- A backend that stays down. ---- *)

(* The current transport fails: the browser reports an error first when
   [errors] is set, and then the closure. *)
Definition fails (errors : bool) (sid : nat) (w : world) : world :=
  turn (fire_close sid) (if errors then turn onerror w else w).

(* The current transport fails; if the close handler armed a timer, the
   timer expires, [connect] runs, and the transport it creates fails in
   turn, and so on for at most [rounds] closures. *)
Fixpoint neverReopens (errors : bool) (rounds : nat) (w : world) : world :=
  match rounds with
  | 0 => w
  | S n =>
      match ws (this w) with
      | Some sid =>
          let w1 := fails errors sid w in
          match timers w1 with
          | [] => w1
          | _ :: _ => neverReopens errors n (turn fire_timer w1)
          end
      | None => w
      end
  end.

End Manager.

Arguments handler : clear implicits.
Arguments AgentWebSocket : clear implicits.
Arguments world : clear implicits.
Arguments M : clear implicits.
Arguments Val {A} a.
Arguments Exn {A}.

End WS.

(* --------------------------------------------------------------------- *)
(* components/WorkflowPanel.js: collecting the per-action decisions.     *)
(* --------------------------------------------------------------------- *)

Module WorkflowPanel.
Import Protocol.

(* [a[index] = x] on an array: writing past the end extends the array
   and leaves holes in between. *)
Definition array_set {A} (a : array A) (index : nat) (x : A) : array A :=
  if Nat.ltb index (length a) then <[index := Some x]> a
  else a ++ replicate (index - length a) None ++ [Some x].

(* The component's [decisions] state, and the calls it has made to its
   [onApprovalDecision] prop, oldest first. *)
Record panel := Panel {
  decisions : array decision;
  sent : list (array decision) }.

Definition initial : panel := Panel [] [].

Definition handleActionDecision (actions : list action)
    (index : nat) (d : decision) (p : panel) : panel :=
  let newDecisions := array_set (decisions p) index d in
  if Nat.eqb (length newDecisions) (length actions)
  then Panel [] (sent p ++ [newDecisions])
  else Panel newDecisions (sent p).

Definition handleApproveAll (actions : list action) (p : panel) : panel :=
  let allApproved := map (fun _ => Some (Decision "approve" None)) actions in
  Panel [] (sent p ++ [allApproved]).

Definition handleRejectAll (actions : list action) (p : panel) : panel :=
  let allRejected := map (fun _ => Some (Decision "reject" None)) actions in
  Panel [] (sent p ++ [allRejected]).

(* ApprovalAction.handleSaveEdit: [parsed] is JSON.parse(editedArgs),
   [None] when it throws (the user is alerted, nothing is recorded). *)
Definition handleSaveEdit (actions : list action) (index : nat)
    (parsed : option string) (p : panel) : panel :=
  match parsed with
  | Some v => handleActionDecision actions index (Decision "approve" (Some v)) p
  | None => p
  end.

(* The user resolves the actions one by one, in the given order. *)
Definition resolve (actions : list action)
    (steps : list (nat * decision)) (p : panel) : panel :=
  fold_left (fun p s => handleActionDecision actions (fst s) (snd s) p) steps p.

End WorkflowPanel.

(* --------------------------------------------------------------------- *)
(* App.js: the root component's state, its message handlers and the      *)
(* layout.                                                               *)
(* --------------------------------------------------------------------- *)

Module App.
Import Protocol.

Record document := Document {
  doc_id : nat;
  filename : string }.

Record file := File {
  path : string;
  size : option nat;
  modified : option nat;
  file_content : option string }.

Inductive entryType := system | agent | user | error.

Record timelineEntry := Entry {
  entry_type : entryType;
  entry_content : option string;
  timestamp : nat }.

Record state := State {
  connectionStatus : string;
  selectedDocument : option document;
  selectedFile : option file;
  layoutMode : string;
  agentMessages : list timelineEntry;
  approvalRequest : option payload;
  now : nat }.                          (* what [new Date()] returns *)

Definition initial (clock : nat) : state :=
  State "disconnected" None None "default" [] None clock.

Definition setConnectionStatus (v : string) (s : state) : state :=
  State v (selectedDocument s) (selectedFile s) (layoutMode s)
        (agentMessages s) (approvalRequest s) (now s).
Definition setSelectedDocument (v : option document) (s : state) : state :=
  State (connectionStatus s) v (selectedFile s) (layoutMode s)
        (agentMessages s) (approvalRequest s) (now s).
Definition setSelectedFile (v : option file) (s : state) : state :=
  State (connectionStatus s) (selectedDocument s) v (layoutMode s)
        (agentMessages s) (approvalRequest s) (now s).
Definition setLayoutMode (v : string) (s : state) : state :=
  State (connectionStatus s) (selectedDocument s) (selectedFile s) v
        (agentMessages s) (approvalRequest s) (now s).
(* [setAgentMessages(prev => f prev)] *)
Definition setAgentMessages (f : list timelineEntry -> list timelineEntry)
    (s : state) : state :=
  State (connectionStatus s) (selectedDocument s) (selectedFile s) (layoutMode s)
        (f (agentMessages s)) (approvalRequest s) (now s).
Definition setApprovalRequest (v : option payload) (s : state) : state :=
  State (connectionStatus s) (selectedDocument s) (selectedFile s) (layoutMode s)
        (agentMessages s) v (now s).

(* [prev => [...prev, {type, content, timestamp: new Date()}]] *)
Definition append (t : entryType) (c : option string) (s : state) : state :=
  setAgentMessages (fun prev => prev ++ [Entry t c (now s)]) s.

Definition handleConnected (data : payload) (s : state) : state :=
  setConnectionStatus "connected" s.

Definition handleAnalysisStarted (data : payload) (s : state) : state :=
  append system (message data) s.

Definition handleAgentMessage (data : payload) (s : state) : state :=
  append agent (content data) s.

Definition handleApprovalRequired (data : payload) (s : state) : state :=
  append system (Some "Waiting for your approval...")
    (setApprovalRequest (Some data) s).

Definition handleApprovalProcessed (data : payload) (s : state) : state :=
  append system (message data) (setApprovalRequest None s).

Definition handleAnalysisComplete (data : payload) (s : state) : state :=
  append system (message data) s.

Definition handleError (data : payload) (s : state) : state :=
  append error (or_else (message data) "An error occurred") s.

(* The subscriptions made in initializeSession, in order. *)
Definition subscriptions : list (string * (payload -> state -> state)) :=
  [ ("connected", handleConnected);
    ("analysis_started", handleAnalysisStarted);
    ("agent_message", handleAgentMessage);
    ("approval_required", handleApprovalRequired);
    ("approval_processed", handleApprovalProcessed);
    ("analysis_complete", handleAnalysisComplete);
    ("error", handleError) ].

Definition handleDocumentSelect (doc : option document) (s : state) : state :=
  setLayoutMode "document-view" (setSelectedDocument doc s).

Definition handleFileSelect (f : option file) (s : state) : state :=
  setLayoutMode "file-edit" (setSelectedFile f s).

(* Widths in percent. *)
Record sizes := Sizes { left : nat; center : nat; right : nat }.

Definition getPanelSizes (s : state) : sizes :=
  if String.eqb (layoutMode s) "document-view" then Sizes 40 40 20
  else if String.eqb (layoutMode s) "file-edit" then Sizes 20 40 40
  else Sizes 20 60 20.

(* [approvalRequest?.actions?.find(a => a.tool_name === t1 || a.tool_name === t2)] *)
Definition findAction (t1 t2 : string) (req : option payload) : option action :=
  match req with
  | Some r =>
      match actions r with
      | Some acts =>
          List.find (fun a => match tool_name a with
                         | Some t => String.eqb t t1 || String.eqb t t2
                         | None => false
                         end) acts
      | None => None
      end
  | None => None
  end.

(* The [approvalContext] props handed to the two side panels. *)
Definition documentApprovalContext (s : state) : option action :=
  findAction "get_documents" "get_page_text" (approvalRequest s).
Definition fileApprovalContext (s : state) : option action :=
  findAction "write_file" "edit_file" (approvalRequest s).

(* What can happen to the root component: a frame dispatched to the
   handler subscribed for its type, one of the connection manager's own
   events, or a selection made in a panel (DocumentPanel's "Back to
   Documents" and FilePanel's "Back to Files" select [None]). *)
Inductive event :=
| Tick (clock : nat)                       (* time passes *)
| Inbound (data : payload)
| Opened (sessionId : string)              (* the transport opened *)
| Errored                                  (* the transport reported an error *)
| Failed                                   (* the reconnect attempts are spent *)
| SelectDocument (doc : option document)
| SelectFile (f : option file).

(* handleMessage on the subscriptions: the handlers subscribed to the
   frame's type run. *)
Definition dispatch (data : payload) (s : state) : state :=
  match type data with
  | Some t =>
      fold_left (fun s sub => if String.eqb (fst sub) t then snd sub data s else s)
                subscriptions s
  | None => s
  end.

(* notifyHandlers(t, data) on the subscriptions: the handlers
   subscribed to [t] run, whatever [data] holds. *)
Definition notified (t : string) (data : payload) (s : state) : state :=
  fold_left (fun s sub => if String.eqb (fst sub) t then snd sub data s else s)
            subscriptions s.

Definition step (s : state) (e : event) : state :=
  match e with
  | Tick clock =>
      State (connectionStatus s) (selectedDocument s) (selectedFile s)
            (layoutMode s) (agentMessages s) (approvalRequest s) clock
  | Inbound data => dispatch data s
  | Opened sessionId =>
      notified "connected" (Payload None (Some sessionId) None None None None) s
  | Errored => notified "error" emptyPayload s
  | Failed => notified "connection_failed" WS.connectionFailed s
  | SelectDocument doc => handleDocumentSelect doc s
  | SelectFile f => handleFileSelect f s
  end.

Definition run (clock : nat) (es : list event) : state :=
  fold_left step es (initial clock).

(* The claim that the layout follows the current selections. *)
Definition layoutFollowsSelection (s : state) : Prop :=
  (getPanelSizes s = Sizes 40 40 20 <-> selectedDocument s <> None) /\
  (getPanelSizes s = Sizes 20 40 40 <-> selectedFile s <> None) /\
  (selectedDocument s = None -> selectedFile s = None ->
   getPanelSizes s = Sizes 20 60 20).

(* The event is not a deselection. *)
Definition selects (e : event) : bool :=
  match e with
  | SelectDocument None | SelectFile None => false
  | _ => true
  end.

(* The layout mode of the panel in which the most recent selection
   was made, [acc] when there was none. *)
Fixpoint lastSelection (es : list event) (acc : string) : string :=
  match es with
  | [] => acc
  | SelectDocument _ :: es' => lastSelection es' "document-view"
  | SelectFile _ :: es' => lastSelection es' "file-edit"
  | _ :: es' => lastSelection es' acc
  end.

(* What the stored layout mode says about the selections. *)
Definition modeMatchesSelection (s : state) : Prop :=
  (layoutMode s = "default" /\ selectedDocument s = None /\ selectedFile s = None) \/
  (layoutMode s = "document-view" /\ selectedDocument s <> None) \/
  (layoutMode s = "file-edit" /\ selectedFile s <> None).

(* ---- The root component and its connection manager. ---- *)

(* The handlers never throw and never call the manager. *)
Definition asHandler (i : nat) (f : payload -> state -> state) : WS.handler state :=
  WS.Handler i (fun data s => (f data s, [], WS.Returned)).

(* initializeSession: the manager is created, the seven handlers are
   subscribed in order, and [connect] is called. *)
Definition initializeSession (newSessionId : string) (s : state) : WS.world state :=
  WS.turn WS.connect
    (fold_left
       (fun w sub => WS.turn (WS.on (fst (snd sub)) (asHandler (fst sub) (snd (snd sub)))) w)
       (zip (seq 0 (length subscriptions)) subscriptions)
       (WS.World (WS.constructor newSessionId) [] [] s [])).

(* [websocket] tells whether the [websocket] state holds the manager
   yet. *)
Definition startAnalysis {W} (websocket : bool) (text : string) : WS.M W unit :=
  if websocket
  then WS.send (Payload (Some "start_analysis") None (Some text) None None None)
  else WS.effect_ WS.ConsoleError.

Definition sendApprovalDecisions {W} (websocket : bool)
    (ds : array decision) : WS.M W unit :=
  if websocket
  then WS.send (Payload (Some "approval_decision") None None None None (Some ds))
  else WS.effect_ WS.ConsoleError.

End App.

(* --------------------------------------------------------------------- *)
(* components/DocumentPanel.js: page highlighting.                       *)
(* --------------------------------------------------------------------- *)

Module DocumentPanel.
Import Protocol.

Record pageDetail := PageDetail {
  detail_page_num : nat;
  legally_significant : bool }.

(* The response of GET /api/documents/{id}. *)
Record documentDetail := DocumentDetail {
  detail_pages : list pageDetail;
  detail_significant_pages : option (list nat) }.

(* The effect on [approvalContext, documentDetail]: the new value of
   the [highlightedPages] state, given its current value. *)
Definition highlightEffect (approvalContext : option action)
    (detail : option documentDetail) (highlightedPages : list nat) : list nat :=
  match approvalContext ≫= context with
  | Some context =>
      match tool context, documents context, pages context with
      | Some "get_documents", Some docs, _ =>
          match docs with
          | firstDoc :: _ => default [] (significant_pages firstDoc)
          | [] => highlightedPages
          end
      | Some "get_page_text", _, Some ps => map page_num ps
      | _, _, _ => highlightedPages
      end
  | None =>
      match detail with
      | Some d => default [] (detail_significant_pages d)
      | None => highlightedPages
      end
  end.

(* [highlightedPages.includes(page.page_num)] in the page sidebar. *)
Definition isHighlighted (highlightedPages : list nat) (page : pageDetail) : bool :=
  existsb (Nat.eqb (detail_page_num page)) highlightedPages.

End DocumentPanel.

(* --------------------------------------------------------------------- *)
(* components/FilePanel.js: the workspace tree and file highlighting.    *)
(* --------------------------------------------------------------------- *)

Module FilePanel.
Import Protocol.

(* What buildFileTree stores for a file. *)
Record entry := Entry {
  name : string;
  path : string;
  size : option nat;
  modified : option nat }.

(* A node [{files?, dirs?}] with its own properties; [dirs] is an
   object literal used as a map, here its own keys in the order of
   insertion (renderFileTree sorts the keys before it uses them). *)
#[warnings="-register-all"]
Inductive tree := Tree {
  files : option (list entry);
  dirs : option (list (string * tree)) }.

Definition emptyTree : tree := Tree None None.

(* [obj[key]] *)
Fixpoint get {A} (key : string) (obj : list (string * A)) : option A :=
  match obj with
  | [] => None
  | (k, v) :: rest => if String.eqb k key then Some v else get key rest
  end.

(* [obj[key] = v] *)
Fixpoint set {A} (key : string) (v : A) (obj : list (string * A)) : list (string * A) :=
  match obj with
  | [] => [(key, v)]
  | (k, x) :: rest => if String.eqb k key then (k, v) :: rest
                      else (k, x) :: set key v rest
  end.

(* [s.split(sep)] for a one-character separator. *)
Fixpoint split (sep : ascii) (s : string) : list string :=
  match s with
  | EmptyString => [EmptyString]
  | String c s' =>
      if Ascii.eqb c sep then EmptyString :: split sep s'
      else match split sep s' with
           | p :: ps => String c p :: ps
           | [] => [String c EmptyString]
           end
  end.

Definition nonempty (p : string) : bool :=
  match p with EmptyString => false | _ => true end.

(* The members every object literal inherits from Object.prototype: a
   lookup of one of these names finds the member, a function, or for
   [__proto__] Object.prototype itself, also when the object has no
   such key of its own. *)
Definition inheritedMembers : list string :=
  [ "constructor"; "__defineGetter__"; "__defineSetter__"; "hasOwnProperty";
    "__lookupGetter__"; "__lookupSetter__"; "isPrototypeOf";
    "propertyIsEnumerable"; "toString"; "valueOf"; "__proto__";
    "toLocaleString" ].
Definition inherited (key : string) : bool :=
  existsb (String.eqb key) inheritedMembers.

(* [path.split('/').filter(p => p)] *)
Definition parts (path : string) : list string :=
  List.filter nonempty (split "/"%char path).

(* The inner [parts.forEach] for one file, started at node [current],
   in a page whose Object.prototype has no [files] and no [dirs]; the
   result is that node after the walk.

   [current.dirs[part]] on a directory named like an inherited member
   finds that member: no node is created, and [current] leaves the
   tree.  When the member is a function, the rest of the walk hangs the
   file on that function and the tree stays as it is.  When it is
   Object.prototype (the name [__proto__], looked up in the tree or in
   the object the walk has strayed to), the walk goes on to write
   [files] or [dirs] on Object.prototype, which every object of the page
   then inherits: the result is [None], and the model follows the build
   no further. *)
Fixpoint place (ps : list string) (file : App.file) (current : tree) : option tree :=
  match ps with
  | [] => Some current
  | part :: rest =>
      match rest with
      | [] =>
          Some (Tree (Some (default [] (files current)
                            ++ [Entry part (App.path file) (App.size file)
                                  (App.modified file)]))
                     (dirs current))
      | _ :: _ =>
          let ds := default [] (dirs current) in
          if String.eqb part "__proto__" then None
          else if inherited part then
            if existsb (String.eqb "__proto__") (removelast rest) then None
            else Some (Tree (files current) (Some ds))
          else
            match place rest file (default emptyTree (get part ds)) with
            | Some sub => Some (Tree (files current) (Some (set part sub ds)))
            | None => None
            end
      end
  end.

Definition buildFileTree (fs : list App.file) : option tree :=
  fold_left (fun built file =>
               match built with
               | Some t => place (parts (App.path file)) file t
               | None => None
               end) fs (Some emptyTree).

Definition isFileHighlighted (approvalContext : option action) (filePath : string) : bool :=
  match approvalContext with
  | Some a =>
      match context a with
      | Some ctx =>
          match tool_name a with
          | Some t =>
              if (String.eqb t "write_file" || String.eqb t "edit_file")
                 && truthy (file_path ctx)
              then match file_path ctx with
                   | Some p => String.eqb p filePath
                   | None => false
                   end
              else false
          | None => false
          end
      | None => false
      end
  | None => false
  end.

(* ---- Rendering the tree. ---- *)

(* The elements produced by renderFileTree. *)
#[warnings="-register-all"]
Inductive item :=
| DirectoryItem (name : string) (depth : nat) (children : list item)
| FileItem (file : entry) (depth : nat) (isSelected isHighlighted : bool).

Section Render.
(* [a.localeCompare(b) <= 0]: the collation is the browser's. *)
Variable localeLe : string -> string -> bool.
(* The order of [sort()] without a comparator, that of the strings'
   UTF-16 code units: [a] does not come after [b]. *)
Variable codeUnitLe : string -> string -> bool.

(* Array.prototype.sort (stable) as an insertion sort. *)
Fixpoint insert {A} (le : A -> A -> bool) (x : A) (l : list A) : list A :=
  match l with
  | [] => [x]
  | y :: l' => if le y x then y :: insert le x l' else x :: l
  end.
Definition sort {A} (le : A -> A -> bool) (l : list A) : list A :=
  fold_left (fun acc x => insert le x acc) l [].

Definition byKey {A} (a b : string * A) : bool := codeUnitLe (fst a) (fst b).
Definition byName (a b : entry) : bool := localeLe (name a) (name b).

(* DirectoryItem's own renderFileTree: every directory starts
   expanded, and its files are rendered with
   [isSelected={false} isHighlighted={false}]. *)
Fixpoint renderDirectoryChildren (t : tree) (depth : nat) : list item :=
  match t with
  | Tree fs ds =>
      map (fun kv => DirectoryItem (fst kv) depth (snd kv))
          (sort byKey
             match ds with
             | Some l =>
                 map (fun kv => let '(k, sub) := kv in
                                (k, renderDirectoryChildren sub (S depth))) l
             | None => []
             end)
      ++ map (fun f => FileItem f depth false false)
             (sort byName (default [] fs))
  end.

(* FilePanel's renderFileTree(fileTree), at depth 0. *)
Definition renderFileTree (selectedFile : option App.file)
    (approvalContext : option action) (t : tree) : list item :=
  map (fun kv => DirectoryItem (fst kv) 0 (renderDirectoryChildren (snd kv) 1))
      (sort byKey (default [] (dirs t)))
  ++ map (fun f => FileItem f 0
                     match selectedFile with
                     | Some s => String.eqb (App.path s) (path f)
                     | None => false
                     end
                     (isFileHighlighted approvalContext (path f)))
         (sort byName (default [] (files t))).
End Render.

(* Whether the rendered items show the file at [p] highlighted. *)
Fixpoint showsHighlighted (p : string) (it : item) : bool :=
  match it with
  | DirectoryItem _ _ children => existsb (showsHighlighted p) children
  | FileItem f _ _ h => String.eqb (path f) p && h
  end.

(* ---- Reading the tree. ---- *)

(* The node reached from [t] through the directories [ds]. *)
Fixpoint subtree (t : tree) (ds : list string) : option tree :=
  match ds with
  | [] => Some t
  | d :: ds' =>
      match get d (default [] (dirs t)) with
      | Some sub => subtree sub ds'
      | None => None
      end
  end.

(* The files listed at the node reached through [ds]. *)
Definition filesAt (t : tree) (ds : list string) : list entry :=
  match subtree t ds with
  | Some n => default [] (files n)
  | None => []
  end.

(* The directories a path goes through, and the entry filed for it
   (none when the path has no segment). *)
Definition dirname (ps : list string) : list string := removelast ps.
Definition entryFor (ps : list string) (file : App.file) : list entry :=
  match last ps with
  | Some n => [Entry n (App.path file) (App.size file) (App.modified file)]
  | None => []
  end.

(* The entries to be listed at the node reached through [ds]. *)
Definition filedUnder (ds : list string) (fs : list App.file) : list entry :=
  flat_map (fun file =>
              if decide (ds = dirname (parts (App.path file)))
              then entryFor (parts (App.path file)) file else []) fs.

(* The path of [file] goes through the directories [ds]. *)
Definition traverses (file : App.file) (ds : list string) : Prop :=
  exists rest, rest <> [] /\ parts (App.path file) = ds ++ rest.

(* The directories of a path, and of every path of a list, are plain
   names: none is the name of a member inherited from
   Object.prototype. *)
Definition plain (ps : list string) : Prop :=
  Forall (fun d => inherited d = false) (dirname ps).
Definition plainDirectories (fs : list App.file) : Prop :=
  Forall (fun file => plain (parts (App.path file))) fs.

(* The claim that every file of the list is listed somewhere in the
   tree that is built. *)
Definition everyFileListed (fs : list App.file) : Prop :=
  forall file, In file fs ->
    exists t ds e, buildFileTree fs = Some t /\
      In e (filesAt t ds) /\ path e = App.path file.

End FilePanel.

(* --------------------------------------------------------------------- *)
(* Concrete sessions used to exercise the model.                         *)
(* --------------------------------------------------------------------- *)

Module Scenario.
Import Protocol WS.

(* A manager without subscribers, connected to the backend. *)
Definition fresh : world unit := World (constructor "s1") [] [] tt [].
Definition connected : world unit := turn (fire_open 0) (turn connect fresh).

(* Two subscribers to the same event type that record their runs; the
   first one registered throws. *)
Definition thrower : handler (list nat) :=
  Handler 1 (fun _ log => (log ++ [1], [], Threw)).
Definition listener : handler (list nat) :=
  Handler 2 (fun _ log => (log ++ [2], [], Returned)).
Definition subscribed (t : string) : world (list nat) :=
  turn (on t listener)
    (turn (on t thrower) (World (constructor "s1") [] [] [] [])).


(* A subscriber to [agent_message] that records its run and then calls
   the cleanup function of its subscription (the cleanup finds the
   function by its identity, 3). *)
Definition leaver : handler (list nat) :=
  Handler 3 (fun _ log =>
    (log ++ [3],
     [callCleanup "agent_message" (Handler 3 (fun _ log' => (log', [], Returned)))],
     Returned)).

(* The claim that a function registered twice for an event type is
   called twice for every frame of that type. *)
Definition registeredTwiceCalledTwice : Prop :=
  forall (w : world (list nat)) (t : string) (h : handler (list nat)) (m : payload),
    type m = Some t ->
    indexOf (handlers_for t w) h = None ->
    let w2 := turn (on t h) (turn (on t h) w) in
    calls (hid h) (trace (turn (handleMessage m) w2)) = calls (hid h) (trace w2) + 2.

Definition frame (t : string) : payload :=
  Payload (Some t) None None None None None.

(* A subscriber that answers every event by sending a frame. *)
Definition replier : handler (list nat) :=
  Handler 4 (fun _ log => (log ++ [4], [callSend (frame "ack")], Returned)).

End Scenario.

(* --------------------------------------------------------------------- *)
(* Whole sessions of the connection manager: the calls made by its       *)
(* users and the events delivered by the browser, in any order.          *)
(* --------------------------------------------------------------------- *)

Module Events.
Import Protocol WS.

Section Ops.
Context {W : Type}.

Inductive op :=
| Connect                                       (* connect() *)
| Close                                         (* close() *)
| Send (m : payload)                            (* send(m) *)
| On (t : string) (h : handler W)               (* on(t, h) *)
| Unsubscribe (t : string) (h : handler W)      (* the cleanup of on(t, h) *)
| Opened (sid : nat)                            (* transport sid: open event *)
| Message (frame : option payload)              (* a message event *)
| Errored                                       (* an error event *)
| Closed (sid : nat)                            (* transport sid: close event *)
| TimerExpired.                                 (* a reconnect timer expires *)

Definition exec (o : op) : M W unit :=
  match o with
  | Connect => connect
  | Close => close
  | Send m => send m
  | On t h => on t h
  | Unsubscribe t h => unsubscribe t h
  | Opened sid => fire_open sid
  | Message frame => onmessage frame
  | Errored => onerror
  | Closed sid => fire_close sid
  | TimerExpired => fire_timer
  end.

Definition run (os : list op) (w : world W) : world W :=
  fold_left (fun w o => turn (exec o) w) os w.

(* What running subscribers adds to a trace: calls and error reports. *)
Definition isNoise (e : effect) : bool :=
  match e with Invoke _ _ | ConsoleError => true | _ => false end.

(* The handlers a message event is routed to: those subscribed to the
   type of the parsed frame. *)
Definition recipients (frame : option payload) (w : world W) : list (handler W) :=
  match frame with
  | Some m => match type m with
              | Some t => handlers_for t w
              | None => []
              end
  | None => []
  end.

Definition isSend (o : op) : bool :=
  match o with Send _ => true | _ => false end.

(* The call subscribes nobody who sends, directly or through the
   subscribers it registers. *)
Definition tame (o : op) : Prop :=
  match o with On _ h => sendFree h | _ => True end.

(* Every subscriber of the manager is one that never sends. *)
Definition sendFreeWorld (w : world W) : Prop :=
  forall t, Forall sendFree (handlers_for t w).

(* From [w] to [w'] nothing was transmitted, and if the subscribers
   were ones that never send, they still are. *)
Definition silently (w w' : world W) : Prop :=
  sendFreeWorld w ->
  sendFreeWorld w' /\ transmitted (trace w') = transmitted (trace w).

(* A manager just constructed, before any call. *)
Definition start (sessionId : string) (a : W) : world W :=
  World (constructor sessionId) [] [] a [].

(* The delay of a reconnect attempt: 2000 ms times the attempt number,
   which is between 1 and the budget. *)
Definition reconnectDelay (budget d : nat) : Prop :=
  exists n, 1 <= n <= budget /\ d = 2000 * n.

(* What every session keeps true of the manager. *)
Definition wellFormed (w : world W) : Prop :=
  maxReconnectAttempts (this w) = 5 /\
  reconnectAttempts (this w) <= 5 /\
  (forall sid, ws (this w) = Some sid -> sid < length (sockets w)) /\
  Forall (reconnectDelay 5) (timers w).

End Ops.

Arguments op : clear implicits.

End Events.

(* --------------------------------------------------------------------- *)
(* Reading a history of the root component.                              *)
(* --------------------------------------------------------------------- *)

Module History.
Import Protocol App.

Definition hasType (t : string) (data : payload) : bool :=
  match type data with
  | Some t' => String.eqb t' t
  | None => false
  end.

(* The frames whose handler writes to the timeline. *)
Definition logged (data : payload) : bool :=
  existsb (fun t => hasType t data)
    ["analysis_started"; "agent_message"; "approval_required";
     "approval_processed"; "analysis_complete"; "error"].

(* The events that add an entry to the timeline: the frames above, and
   an error reported by the transport. *)
Definition loggedEvent (e : event) : bool :=
  match e with
  | Inbound data => logged data
  | Errored => true
  | _ => false
  end.

(* The events that tell the component it is connected: a [connected]
   frame, and the transport's open event. *)
Definition connectedEvent (e : event) : bool :=
  match e with
  | Inbound data => hasType "connected" data
  | Opened _ => true
  | _ => false
  end.

Definition selectionEvent (e : event) : bool :=
  match e with SelectDocument _ | SelectFile _ => true | _ => false end.

(* The request left pending by a history: that of the last
   [approval_required] frame, unless an [approval_processed] frame came
   after it. *)
Fixpoint pendingAfter (es : list event) (acc : option payload) : option payload :=
  match es with
  | [] => acc
  | Inbound data :: es' =>
      pendingAfter es'
        (if hasType "approval_required" data then Some data
         else if hasType "approval_processed" data then None
         else acc)
  | _ :: es' => pendingAfter es' acc
  end.

(* The root component's subscriptions, as far as a failing connection
   is concerned: [error] has its handler, [connection_failed] has none,
   and the status shown is [connected]. *)
Definition unaware (w : WS.world state) : Prop :=
  WS.handlers_for "error" w = [asHandler 6 handleError] /\
  WS.handlers_for "connection_failed" w = [] /\
  connectionStatus (WS.app w) = "connected".

End History.

(* --------------------------------------------------------------------- *)
(* Reading the approval dialog.                                          *)
(* --------------------------------------------------------------------- *)

Module Dialog.
Import Protocol WorkflowPanel.


End Dialog.

(* --------------------------------------------------------------------- *)
(* components/FilePanel.js: the rest of the file browser.                *)
(* --------------------------------------------------------------------- *)

Module Browser.
Import Protocol FilePanel.

(* [pieces.join(sep)] *)
Fixpoint join (sep : string) (pieces : list string) : string :=
  match pieces with
  | [] => EmptyString
  | [p] => p
  | p :: rest => String.append p (String.append sep (join sep rest))
  end.

(* Whether the character occurs in the string. *)
Fixpoint occurs (c : ascii) (s : string) : bool :=
  match s with
  | EmptyString => false
  | String c' s' => Ascii.eqb c' c || occurs c s'
  end.

(* Every entry stored in a tree, at any depth. *)
Fixpoint entries (t : tree) : list entry :=
  match t with
  | Tree fs ds =>
      default [] fs ++
      match ds with
      | Some l => flat_map (fun kv => let '(_, sub) := kv in entries sub) l
      | None => []
      end
  end.

(* The entries held by the directories of a node. *)
Definition below (ds : list (string * tree)) : list entry :=
  flat_map (fun kv => entries (snd kv)) ds.

(* Every file shown by a rendered item, at any depth. *)
Fixpoint shown (it : item) : list entry :=
  match it with
  | DirectoryItem _ _ children => flat_map shown children
  | FileItem f _ _ _ => [f]
  end.

(* ---- detectLanguage ---- *)

(* [String.prototype.toLowerCase] on the letters A-Z; the keys of
   languageMap and the member names of Object.prototype are ASCII, and
   no other character has an ASCII letter of theirs as its lower case. *)
Definition lower (c : ascii) : ascii :=
  let n := nat_of_ascii c in
  if Nat.leb 65 n && Nat.leb n 90 then ascii_of_nat (n + 32) else c.

Fixpoint toLowerCase (s : string) : string :=
  match s with
  | EmptyString => EmptyString
  | String c s' => String (lower c) (toLowerCase s')
  end.

Definition languageMap : list (string * string) :=
  [ ("md", "markdown"); ("txt", "plaintext"); ("py", "python");
    ("js", "javascript"); ("json", "json"); ("html", "html"); ("css", "css") ].

(* What detectLanguage returns: the name of a language, or the
   inherited member found under the extension. *)
Inductive language := Language (name : string) | Member (key : string).

(* [languageMap[ext] || 'plaintext'] *)
Definition lookupLanguage (ext : string) : language :=
  match get ext languageMap with
  | Some l => Language l
  | None => if existsb (String.eqb ext) inheritedMembers then Member ext
            else Language "plaintext"
  end.

(* [path.split('.').pop().toLowerCase()] and the lookup. *)
Definition detectLanguage (path : string) : language :=
  lookupLanguage (toLowerCase (default EmptyString (last (split "."%char path)))).

End Browser.

(* ===================================================================== *)
(* Properties of the connection manager.                                 *)
(* ===================================================================== *)

Section ManagerFacts.
Import Protocol WS.
Context {W : Type}.
Implicit Types (w : world W) (h : handler W) (hs : list (handler W)).

Lemma reconnectEvents_app (a b : list effect) :
  reconnectEvents (a ++ b) = reconnectEvents a ++ reconnectEvents b.
Proof. apply List.filter_app. Qed.

Lemma invoked_app (a b : list effect) : invoked (a ++ b) = invoked a ++ invoked b.
Proof. apply flat_map_app. Qed.

Lemma calls_app (k : nat) (a b : list effect) :
  calls k (a ++ b) = calls k a + calls k b.
Proof. unfold calls. rewrite invoked_app. apply count_occ_app. Qed.

Lemma transmitted_app (a b : list effect) :
  transmitted (a ++ b) = transmitted a ++ transmitted b.
Proof. apply flat_map_app. Qed.

(* ---- Subscribers that do not call the manager. ---- *)

(* A call of such a subscriber changes the subscriber's state and adds
   the call to the trace, nothing else. *)
Lemma call_quiet h (data : payload) w :
  asks h data (app w) = [] ->
  call h data w =
    (World (this w) (sockets w) (timers w) (act h data (app w))
           (trace w ++ [Invoke (hid h) data]),
     match ends h data (app w) with Returned => Val tt | Threw => Exn end).
Proof.
  unfold asks, act, ends, call, bind, effect_, run_body, set_app. cbn [app].
  destruct (hcall h data (app w)) as [[a asked] o]. cbn [fst snd].
  by intros ->.
Qed.

Lemma call_frame h (data : payload) w :
  quiet h ->
  let w' := fst (call h data w) in
  this w' = this w /\ sockets w' = sockets w /\ timers w' = timers w /\
  app w' = act h data (app w) /\
  trace w' = trace w ++ [Invoke (hid h) data].
Proof. intros Hq. by rewrite call_quiet by apply Hq. Qed.

(* The loop over the live array is a loop over the array as it was, as
   long as the callback leaves the manager alone. *)
Lemma forEachLive_static (t : string) (f : handler W -> M W unit) (n : nat) :
  forall k w,
    (forall h w', In h (take n (drop k (handlers_for t w))) ->
                  this (fst (f h w')) = this w') ->
    forEachLive t f k n w = forEach (take n (drop k (handlers_for t w))) f w.
Proof.
  induction n as [|n IH]; intros k w Hf; [done|].
  cbn [forEachLive]. unfold bind at 1, gets at 1.
  destruct (handlers_for t w !! k) as [h|] eqn:E.
  - rewrite (drop_S _ _ _ E). cbn [take forEach]. unfold bind.
    assert (Hh : this (fst (f h w)) = this w).
    { apply Hf. rewrite (drop_S _ _ _ E). by left. }
    destruct (f h w) as [w1 [[]|]] eqn:Ef; [|done]. cbn [fst] in Hh.
    rewrite IH.
    + unfold handlers_for. by rewrite Hh.
    + intros h' w' Hin. apply Hf. rewrite (drop_S _ _ _ E). right.
      unfold handlers_for in *. by rewrite Hh in Hin.
  - apply lookup_ge_None in E. rewrite drop_ge by lia. cbn [take forEach].
    rewrite IH.
    + rewrite drop_ge by lia. by rewrite take_nil.
    + intros h' w'. rewrite drop_ge by lia. by rewrite take_nil.
Qed.

Lemma notifyHandlers_quiet (t : string) (data : payload) w :
  Forall quiet (handlers_for t w) ->
  notifyHandlers t data w =
    forEach (handlers_for t w) (fun h => call h data)
      (World (this w) (sockets w) (timers w) (app w) (trace w ++ [Notify t])).
Proof.
  intros Hq. unfold notifyHandlers, bind at 1 2, effect_ at 1, gets. cbn [fst snd].
  rewrite forEachLive_static.
  - unfold handlers_for. cbn [this]. by rewrite drop_0, firstn_all.
  - intros h w' Hin. unfold handlers_for in Hin. cbn [this] in Hin.
    rewrite drop_0, firstn_all in Hin. apply call_frame.
    rewrite List.Forall_forall in Hq. by apply Hq.
Qed.

Lemma handleMessage_quiet (m : payload) (t : string) w :
  type m = Some t ->
  Forall quiet (handlers_for t w) ->
  handleMessage m w =
    forEach (handlers_for t w)
      (fun h => try_catch (call h m) (effect_ ConsoleError))
      (World (this w) (sockets w) (timers w) (app w) (trace w ++ [ConsoleLog])).
Proof.
  intros Ht Hq. unfold handleMessage. rewrite Ht.
  unfold bind at 1 2, effect_ at 1, gets. cbn [fst snd].
  rewrite forEachLive_static.
  - unfold handlers_for. cbn [this]. by rewrite drop_0, firstn_all.
  - intros h w' Hin. unfold handlers_for in Hin. cbn [this] in Hin.
    rewrite drop_0, firstn_all in Hin.
    assert (Hh : quiet h) by (rewrite List.Forall_forall in Hq; by apply Hq).
    unfold try_catch. rewrite call_quiet by apply Hh.
    by destruct (ends h m (app w')).
Qed.

Lemma deliver_app hs (hs' : list (handler W)) (data : payload) (s : W) :
  deliver (hs ++ hs') data s = deliver hs' data (deliver hs data s).
Proof. apply fold_left_app. Qed.


Lemma reconnectEvents_calls hs (data : payload) :
  reconnectEvents (map (fun h => Invoke (hid h) data) hs) = [].
Proof. by induction hs. Qed.

(* What a [forEach] over uncaught calls leaves behind: the manager,
   the transports and the timers are untouched, and the trace grows by
   handler calls only. *)
Lemma forEach_call_frame hs (data : payload) w :
  Forall quiet hs ->
  let w' := fst (forEach hs (fun h => call h data) w) in
  this w' = this w /\ sockets w' = sockets w /\ timers w' = timers w /\
  exists k, trace w' = trace w ++ map (fun h => Invoke (hid h) data) (take k hs).
Proof.
  intros Hq. revert w. induction Hq as [|h hs Hh _ IH]; intros w; cbn [forEach].
  - unfold ret. cbn. repeat split; trivial. exists 0. by rewrite app_nil_r.
  - unfold bind. rewrite call_quiet by apply Hh.
    destruct (ends h data (app w)); cbn [fst].
    + destruct (IH (World (this w) (sockets w) (timers w) (act h data (app w))
                      (trace w ++ [Invoke (hid h) data]))) as (H1 & H2 & H3 & k & H4).
      cbn [this sockets timers trace] in *. rewrite H1, H2, H3. repeat split; trivial.
      exists (S k). rewrite H4, <- app_assoc. done.
    + cbn. repeat split; trivial. by exists 1.
Qed.

(* When no subscriber throws, every one is called, in order. *)
Lemma forEach_call_all hs (data : payload) w :
  Forall quiet hs -> Forall returns hs ->
  forEach hs (fun h => call h data) w =
    (World (this w) (sockets w) (timers w) (deliver hs data (app w))
           (trace w ++ map (fun h => Invoke (hid h) data) hs), Val tt).
Proof.
  intros Hq Hr. revert w.
  induction Hq as [|h hs Hh _ IH]; intros w; cbn [forEach].
  - unfold ret. cbn. rewrite app_nil_r. by destruct w.
  - inversion Hr as [|? ? Hrh Hrs]; subst. unfold bind.
    rewrite call_quiet by apply Hh. rewrite (Hrh data (app w)).
    rewrite (IH Hrs). cbn [this sockets timers app trace map deliver fold_left].
    by rewrite <- app_assoc.
Qed.

Lemma notifyHandlers_frame (t : string) (data : payload) w :
  Forall quiet (handlers_for t w) ->
  let w' := fst (notifyHandlers t data w) in
  this w' = this w /\ sockets w' = sockets w /\ timers w' = timers w /\
  reconnectEvents (trace w') =
    reconnectEvents (trace w) ++ (if String.eqb t "connection_failed" then [Notify t] else []).
Proof.
  intros Hq. rewrite notifyHandlers_quiet by done.
  match goal with |- context [forEach ?l ?f ?w0] =>
    destruct (forEach_call_frame l data w0 Hq) as (H1 & H2 & H3 & k & H4) end.
  cbv zeta in *. rewrite H1, H2, H3. repeat split; trivial.
  rewrite H4. cbn [trace]. rewrite !reconnectEvents_app, reconnectEvents_calls, app_nil_r.
  cbn. by destruct (String.eqb t "connection_failed").
Qed.

(* The event reaches every subscriber when none of them throws. *)
Lemma notifyHandlers_all (t : string) (data : payload) w :
  Forall quiet (handlers_for t w) -> Forall returns (handlers_for t w) ->
  notifyHandlers t data w =
    (World (this w) (sockets w) (timers w) (deliver (handlers_for t w) data (app w))
           (trace w ++ Notify t :: map (fun h => Invoke (hid h) data) (handlers_for t w)),
     Val tt).
Proof.
  intros Hq Hr. rewrite notifyHandlers_quiet by done.
  rewrite forEach_call_all by done. cbn [this sockets timers app trace].
  by rewrite <- app_assoc.
Qed.

(* An error report changes nothing the reconnection logic looks at. *)
Lemma settle (errors : bool) w :
  (errors = true -> Forall quiet (handlers_for "error" w)) ->
  let w0 := if errors then turn onerror w else w in
  this w0 = this w /\ sockets w0 = sockets w /\ timers w0 = timers w /\
  reconnectEvents (trace w0) = reconnectEvents (trace w) /\
  ((errors = true -> Forall returns (handlers_for "error" w)) ->
   app w0 = Nat.iter (if errors then 1 else 0)
              (deliver (handlers_for "error" w) emptyPayload) (app w)).
Proof.
  intros Hq. destruct errors; [|done]. specialize (Hq eq_refl).
  unfold turn, onerror, bind, effect_; cbn [fst snd].
  match goal with |- context [notifyHandlers ?t ?d ?w0] =>
    destruct (notifyHandlers_frame t d w0 Hq) as (H1 & H2 & H3 & H4);
    pose proof (notifyHandlers_all t d w0 Hq) as Hall end.
  cbv zeta in *. cbn [this sockets timers app trace] in *.
  split; [done|]. split; [done|]. split; [done|]. split.
  - rewrite H4, reconnectEvents_app. cbn. by rewrite !app_nil_r.
  - intros Hr. by rewrite (Hall (Hr eq_refl)).
Qed.

(* A closure while the retry budget lasts. *)
Lemma fire_close_retry w (sid : nat) :
  reconnectAttempts (this w) < maxReconnectAttempts (this w) ->
  turn (fire_close sid) w =
    World (with_attempts (S (reconnectAttempts (this w)))
             (with_isConnecting false (this w)))
          (<[sid := CLOSED]> (sockets w))
          (timers w ++ [2000 * S (reconnectAttempts (this w))])
          (app w)
          (trace w ++ [ConsoleLog; ConsoleLog;
                       SetTimeout (2000 * S (reconnectAttempts (this w)))]).
Proof.
  intros Hlt. apply Nat.ltb_lt in Hlt.
  unfold turn, fire_close, onclose, bind, set_readyState, set_sockets, effect_,
    set_this, gets; simpl.
  rewrite Hlt. simpl. by rewrite <- !app_assoc.
Qed.

(* A closure once the budget is spent: the terminal event is emitted,
   and it reaches every subscriber when none of them throws. *)
Lemma fire_close_exhausted w (sid : nat) :
  maxReconnectAttempts (this w) <= reconnectAttempts (this w) ->
  Forall quiet (handlers_for "connection_failed" w) ->
  let w' := turn (fire_close sid) w in
  this w' = with_isConnecting false (this w) /\
  timers w' = timers w /\
  reconnectEvents (trace w') =
    reconnectEvents (trace w) ++ [Notify "connection_failed"] /\
  (Forall returns (handlers_for "connection_failed" w) ->
   app w' = deliver (handlers_for "connection_failed" w) connectionFailed (app w) /\
   trace w' = (trace w ++ [ConsoleLog]) ++
     Notify "connection_failed" ::
     map (fun h => Invoke (hid h) connectionFailed) (handlers_for "connection_failed" w)).
Proof.
  intros Hge Hq. apply Nat.ltb_ge in Hge.
  unfold turn, fire_close, onclose, bind, set_readyState, set_sockets, effect_,
    set_this, gets; cbn [fst snd].
  cbn [this with_isConnecting reconnectAttempts maxReconnectAttempts].
  rewrite Hge.
  match goal with |- context [notifyHandlers ?t ?d ?w0] =>
    destruct (notifyHandlers_frame t d w0 Hq) as (H1 & H2 & H3 & H4);
    pose proof (notifyHandlers_all t d w0 Hq) as Hall end.
  cbv zeta in *. cbn [this sockets timers app trace] in *.
  split; [done|]. split; [done|]. split.
  - rewrite H4, reconnectEvents_app. cbn. by rewrite app_nil_r.
  - intros Hr. by rewrite (Hall Hr).
Qed.





Lemma same_handlers (t : string) w (w' : world W) :
  messageHandlers (this w') = messageHandlers (this w) ->
  handlers_for t w' = handlers_for t w.
Proof. unfold handlers_for. by intros ->. Qed.



(* [close()] does not disarm the close handler: whenever budget is
   left, the close event that follows it arms a reconnect. *)
Lemma reconnect_after_close w (sid : nat) :
  ws (this w) = Some sid ->
  reconnectAttempts (this w) < maxReconnectAttempts (this w) ->
  ws (this (turn close w)) = None /\
  timers (turn (fire_close sid) (turn close w)) =
    timers w ++ [2000 * S (reconnectAttempts (this w))].
Proof.
  intros Hws Hlt.
  assert (Hc : this (turn close w) = with_ws None (this w) /\
               timers (turn close w) = timers w).
  { unfold turn, close, bind, gets. cbn [fst snd]. by rewrite Hws. }
  destruct Hc as [Hthis Htimers]. split; [by rewrite Hthis|].
  rewrite fire_close_retry by (by rewrite Hthis).
  cbn [timers]. by rewrite Htimers, Hthis.
Qed.

(* ---- Subscribers that call the manager while they run. ---- *)

Lemma spares_refl w : spares w w.
Proof. repeat split; trivial. exists []. by rewrite app_nil_r. Qed.

Lemma spares_trans w (w1 w2 : world W) : spares w w1 -> spares w1 w2 -> spares w w2.
Proof.
  intros (A1 & A2 & A3 & tr1 & A4 & A5) (B1 & B2 & B3 & tr2 & B4 & B5).
  unfold spares. rewrite B1, B2, B3, A1, A2, A3. repeat split; trivial.
  exists (tr1 ++ tr2). rewrite B4, A4, <- app_assoc. split; [done|].
  by rewrite reconnectEvents_app, A5, B5.
Qed.

(* The methods a subscriber may call return normally and spare the
   reconnection state. *)
Lemma perform_spares (c : method (handler W)) w :
  snd (perform c w) = Val tt /\ spares w (fst (perform c w)) /\
  app (fst (perform c w)) = app w.
Proof.
  unfold spares. destruct c as [| |m|t h|t h]; cbn [perform].
  - unfold connect, bind, gets, set_this, effect_, set_sockets, ret. cbn [fst snd].
    destruct (isConnecting (this w) || ws_is_open w); cbn.
    + repeat split; trivial. exists []. by rewrite app_nil_r.
    + repeat split; trivial. by eexists.
  - unfold close, bind, gets, transport_close, effect_, set_sockets, set_this, ret.
    cbn [fst snd]. destruct (ws (this w)); cbn.
    + repeat split; trivial. by eexists.
    + repeat split; trivial. exists []. by rewrite app_nil_r.
  - unfold send, bind, gets, effect_. cbn [fst snd].
    destruct (ws_is_open w); cbn; repeat split; trivial; by eexists.
  - unfold on, bind, set_this. cbn [fst snd].
    destruct (messageHandlers (this w) !! t); cbn; repeat split; trivial;
      exists []; by rewrite app_nil_r.
  - unfold unsubscribe, set_this. cbn [fst snd].
    destruct (messageHandlers (this w) !! t) as [l|]; cbn.
    + destruct (indexOf l h); cbn; repeat split; trivial;
        exists []; by rewrite app_nil_r.
    + repeat split; trivial. exists []. by rewrite app_nil_r.
Qed.

(* A property of worlds that every method call keeps is kept by the
   calls a subscriber makes. *)
Lemma asked_keeps (R : world W -> world W -> Prop) (P : method (handler W) -> Prop)
    (asked : list (method (handler W))) :
  (forall w, R w w) ->
  (forall a b c, R a b -> R b c -> R a c) ->
  (forall c w, P c -> R w (fst (perform c w))) ->
  Forall P asked ->
  forall w, R w (fst (forEach asked perform w)) /\
            snd (forEach asked perform w) = Val tt.
Proof.
  intros Hrefl Htrans Hstep Hall.
  induction Hall as [|c asked Hc _ IH]; intros w; cbn [forEach]; [by split|].
  unfold bind. destruct (perform_spares c w) as (Hv & _).
  pose proof (Hstep c w Hc) as Hc'.
  destruct (perform c w) as [w1 r]. cbn [fst snd] in *. subst r.
  destruct (IH w1) as [H1 H2]. split; [by eapply Htrans | done].
Qed.

(* The same for one call of a subscriber, guarded or not, when the
   property does not depend on the subscribers' state or on handler
   calls and error reports in the trace. *)
Lemma call_keeps (R : world W -> world W -> Prop) (P : method (handler W) -> Prop)
    h (data : payload) w :
  (forall w, R w w) ->
  (forall a b c, R a b -> R b c -> R a c) ->
  (forall c w, P c -> R w (fst (perform c w))) ->
  (forall w a e, e = ConsoleError \/ (exists i d, e = Invoke i d) ->
     R w (World (this w) (sockets w) (timers w) a (trace w ++ [e]))) ->
  Forall P (asks h data (app w)) ->
  R w (fst (call h data w)) /\
  R w (fst (try_catch (call h data) (effect_ ConsoleError) w)) /\
  snd (try_catch (call h data) (effect_ ConsoleError) w) = Val tt.
Proof.
  intros Hrefl Htrans Hstep Hnoise Hall.
  assert (Hcall : R w (fst (call h data w))).
  { unfold call, bind, effect_, run_body, set_app. cbn [fst snd app].
    unfold asks in Hall. destruct (hcall h data (app w)) as [[a asked] o].
    cbn [fst snd] in *. cbn [this sockets timers app trace].
    eapply Htrans; [|by apply (asked_keeps R P)].
    apply (Hnoise w a). right. by eexists _, _. }
  split; [done|]. unfold try_catch.
  destruct (call h data w) as [w1 [[]|]]; cbn [fst snd] in *; [done|].
  split; [|done]. eapply Htrans; [exact Hcall|].
  destruct w1 as [t1 s1 m1 a1 tr1]. apply (Hnoise _ a1). by left.
Qed.

(* The same for the loop over the subscribers of a type. *)
Lemma forEachLive_keeps (R : world W -> world W -> Prop) (t : string)
    (f : handler W -> M W unit) :
  (forall w, R w w) ->
  (forall a b c, R a b -> R b c -> R a c) ->
  (forall h w k, handlers_for t w !! k = Some h -> R w (fst (f h w))) ->
  forall n k w, R w (fst (forEachLive t f k n w)).
Proof.
  intros Hrefl Htrans Hstep. induction n as [|n IH]; intros k w; [apply Hrefl|].
  cbn [forEachLive]. unfold bind at 1, gets at 1.
  destruct (handlers_for t w !! k) as [h|] eqn:E; [|apply IH].
  unfold bind. pose proof (Hstep h w k E) as Hh.
  destruct (f h w) as [w1 [[]|]]; cbn [fst] in *; [|done].
  eapply Htrans; [exact Hh | apply IH].
Qed.

(* The guarded loop never throws. *)
Lemma forEachLive_guarded (t : string) (m : payload) :
  forall n k w,
    snd (forEachLive t (fun h => try_catch (call h m) (effect_ ConsoleError)) k n w)
    = Val tt.
Proof.
  induction n as [|n IH]; intros k w; [done|].
  cbn [forEachLive]. unfold bind at 1, gets at 1.
  destruct (handlers_for t w !! k) as [h|]; [|apply IH].
  unfold bind.
  destruct (call_keeps (fun _ _ => True) (fun _ => True) h m w) as (_ & _ & Hv);
    try done; [by apply Forall_true|].
  destruct (try_catch (call h m) (effect_ ConsoleError) w) as [w1 r].
  cbn [snd] in Hv. subst r. apply IH.
Qed.

Lemma spares_noise w (a : W) (e : effect) :
  e = ConsoleError \/ (exists i d, e = Invoke i d) ->
  spares w (World (this w) (sockets w) (timers w) a (trace w ++ [e])).
Proof.
  intros He. unfold spares. cbn. repeat split; trivial. exists [e].
  split; [done|]. by destruct He as [->|(i & d & ->)].
Qed.

Lemma call_spares h (data : payload) w :
  spares w (fst (call h data w)) /\
  spares w (fst (try_catch (call h data) (effect_ ConsoleError) w)).
Proof.
  destruct (call_keeps spares (fun _ => True) h data w) as (H1 & H2 & _);
    try done.
  - apply spares_refl.
  - apply spares_trans.
  - intros c w0 _. apply perform_spares.
  - apply spares_noise.
  - by apply Forall_true.
Qed.

Lemma spares_effect w (e : effect) :
  isReconnectEvent e = false ->
  spares w (World (this w) (sockets w) (timers w) (app w) (trace w ++ [e])).
Proof.
  intros He. unfold spares. cbn. repeat split; trivial. exists [e].
  split; [done|]. unfold reconnectEvents. cbn. by rewrite He.
Qed.

Lemma loop_spares (t : string) (data : payload) (n k : nat) w :
  spares w (fst (forEachLive t (fun h => call h data) k n w)) /\
  spares w (fst (forEachLive t
                   (fun h => try_catch (call h data) (effect_ ConsoleError)) k n w)).
Proof.
  split; apply (forEachLive_keeps spares); try apply spares_refl;
    try apply spares_trans; intros h w1 k1 _; apply call_spares.
Qed.

Lemma notifyHandlers_unfold (t : string) (data : payload) w :
  notifyHandlers t data w =
    forEachLive t (fun h => call h data) 0 (length (handlers_for t w))
      (World (this w) (sockets w) (timers w) (app w) (trace w ++ [Notify t])).
Proof. reflexivity. Qed.

Lemma handleMessage_unfold (m : payload) (t : string) w :
  type m = Some t ->
  handleMessage m w =
    forEachLive t (fun h => try_catch (call h m) (effect_ ConsoleError)) 0
      (length (handlers_for t w))
      (World (this w) (sockets w) (timers w) (app w) (trace w ++ [ConsoleLog])).
Proof. intros Ht. unfold handleMessage. by rewrite Ht. Qed.

Lemma handleMessage_untyped (m : payload) w :
  type m = None ->
  handleMessage m w =
    (World (this w) (sockets w) (timers w) (app w) (trace w ++ [ConsoleLog]), Val tt).
Proof. intros Ht. unfold handleMessage. by rewrite Ht. Qed.

(* Whatever the subscribers do, an event of the manager's own leaves
   the timers, the retry counter and the budget alone. *)
Lemma notifyHandlers_spares (t : string) (data : payload) w :
  let w' := fst (notifyHandlers t data w) in
  timers w' = timers w /\
  reconnectAttempts (this w') = reconnectAttempts (this w) /\
  maxReconnectAttempts (this w') = maxReconnectAttempts (this w) /\
  reconnectEvents (trace w') =
    reconnectEvents (trace w) ++ (if String.eqb t "connection_failed" then [Notify t] else []).
Proof.
  rewrite notifyHandlers_unfold.
  match goal with |- context [forEachLive t ?f 0 ?n ?w0] =>
    destruct (loop_spares t data n 0 w0) as [(H1 & H2 & H3 & tr & H4 & H5) _] end.
  cbv zeta. split; [exact H1|]. split; [exact H2|]. split; [exact H3|].
  rewrite H4. cbn [trace]. rewrite !reconnectEvents_app, H5, app_nil_r. cbn.
  by destruct (String.eqb t "connection_failed").
Qed.

(* The same for a frame, whose dispatch moreover never throws. *)
Lemma handleMessage_spares (m : payload) w :
  snd (handleMessage m w) = Val tt /\ spares w (fst (handleMessage m w)).
Proof.
  destruct (type m) as [t|] eqn:Ht.
  - rewrite (handleMessage_unfold m t) by done.
    split; [apply forEachLive_guarded|].
    eapply spares_trans; [by apply (spares_effect w ConsoleLog)|].
    apply loop_spares.
  - rewrite handleMessage_untyped by done. split; [done|].
    by apply (spares_effect w ConsoleLog).
Qed.

End ManagerFacts.


Section SendFacts.
Import Protocol WS.
Context {W : Type}.
Implicit Types (w : world W).

(** C8: [send m] hands [m] to the transport exactly when the manager
    holds a transport whose readyState is OPEN; otherwise it only
    reports on the console; in both cases it returns normally and the
    manager, the transports, the timers and the subscribers' state
    stay as they were. *)
Theorem send_only_when_open w (m : payload) :
  snd (send m w) = Val tt /\
  this (turn (send m) w) = this w /\
  sockets (turn (send m) w) = sockets w /\
  timers (turn (send m) w) = timers w /\
  app (turn (send m) w) = app w /\
  trace (turn (send m) w) =
    trace w ++ [if ws_is_open w
                then TransportSend (default 0 (ws (this w))) m
                else ConsoleError] /\
  (In (TransportSend (default 0 (ws (this w))) m)
      (skipn (length (trace w)) (trace (turn (send m) w)))
   <-> ws_is_open w = true) /\
  (ws_is_open w = true <->
   exists sid, ws (this w) = Some sid /\ sockets w !! sid = Some OPEN).
Proof.
  assert (Hiff : ws_is_open w = true <->
            exists sid, ws (this w) = Some sid /\ sockets w !! sid = Some OPEN).
  { unfold ws_is_open. split.
    - destruct (ws (this w)) as [sid|]; [|done]. intros H. exists sid.
      split; trivial. by destruct (sockets w !! sid) as [[]|].
    - by intros (sid & -> & ->). }
  unfold turn, send, bind, gets, effect_; simpl.
  destruct (ws_is_open w) eqn:Hopen; simpl;
    rewrite skipn_app, Nat.sub_diag, skipn_all by lia; simpl;
    (split; [|split; [|split; [|split; [|split; [|split; [|split]]]]]]);
    trivial; try apply Hiff.
  - tauto.
  - split; [|done]. intros [H|[]]. discriminate H.
Qed.
End SendFacts.

Section DispatchFacts.
Import Protocol WS Events.
Context {W : Type}.
Implicit Types (w : world W) (h : handler W) (hs : list (handler W)).

(* One guarded call of a subscriber that does not call the manager:
   the subscriber runs, and a throw is reported and swallowed. *)
Lemma guarded_call h (m : payload) w :
  quiet h ->
  try_catch (call h m) (effect_ ConsoleError) w =
    (World (this w) (sockets w) (timers w) (act h m (app w))
           (trace w ++ Invoke (hid h) m ::
              match ends h m (app w) with Returned => [] | Threw => [ConsoleError] end),
     Val tt).
Proof.
  intros Hh. unfold try_catch. rewrite call_quiet by apply Hh.
  destruct (ends h m (app w)); [done|].
  unfold effect_. cbn [this sockets timers app trace]. by rewrite <- app_assoc.
Qed.

(* The guarded loop of handleMessage over subscribers that do not call
   the manager: every one is called, in order, whether it throws or
   not, and the loop returns. *)
Lemma forEach_guarded hs (m : payload) w :
  Forall quiet hs ->
  exists tr,
    forEach hs (fun h => try_catch (call h m) (effect_ ConsoleError)) w =
      (World (this w) (sockets w) (timers w) (deliver hs m (app w)) (trace w ++ tr),
       Val tt) /\
    invoked tr = map hid hs /\ forallb isNoise tr = true.
Proof.
  intros Hq. revert w. induction Hq as [|h hs Hh _ IH]; intros w; cbn [forEach].
  - exists []. unfold ret. rewrite app_nil_r. by destruct w.
  - unfold bind. rewrite (guarded_call h m w Hh).
    match goal with |- context [forEach hs ?f ?w0] =>
      destruct (IH w0) as (tr & E & H2 & H3) end.
    rewrite E. cbn [this sockets timers app trace deliver fold_left].
    eexists. rewrite <- app_assoc. split; [reflexivity|].
    rewrite invoked_app, forallb_app, H2, H3. cbn.
    by destruct (ends h m (app w)).
Qed.

(* handleMessage hands the frame to every handler subscribed to its
   type, in registration order, when these do not call the manager. *)
Lemma handleMessage_calls_all (m : payload) (t : string) w :
  type m = Some t ->
  Forall quiet (handlers_for t w) ->
  exists tr,
    handleMessage m w =
      (World (this w) (sockets w) (timers w) (deliver (handlers_for t w) m (app w))
             (trace w ++ ConsoleLog :: tr), Val tt) /\
    invoked tr = map hid (handlers_for t w) /\ forallb isNoise tr = true.
Proof.
  intros Ht Hq. rewrite (handleMessage_quiet m t) by done.
  match goal with |- context [forEach ?l ?f ?w0] =>
    destruct (forEach_guarded l m w0 Hq) as (tr & -> & H2 & H3) end.
  cbn [this sockets timers app trace]. exists tr. by rewrite <- app_assoc.
Qed.

Lemma indexOf_None hs h :
  indexOf hs h = None -> count_occ Nat.eq_dec (map hid hs) (hid h) = 0.
Proof.
  induction hs as [|x hs IH]; simpl; [done|].
  destruct (Nat.eqb_spec (hid x) (hid h)) as [E|N]; [done|].
  destruct (indexOf hs h); [done|]. intros _.
  destruct (Nat.eq_dec (hid x) (hid h)); [done|]. by apply IH.
Qed.

Lemma indexOf_app_fresh hs h (rest : list (handler W)) :
  indexOf hs h = None -> indexOf (hs ++ h :: rest) h = Some (length hs).
Proof.
  induction hs as [|x hs IH]; simpl.
  - by rewrite Nat.eqb_refl.
  - destruct (Nat.eqb (hid x) (hid h)); [done|].
    destruct (indexOf hs h) eqn:E; [done|]. intros _. by rewrite IH.
Qed.

Lemma splice1_app {A} (l : list A) (x : A) (rest : list A) :
  splice1 (l ++ x :: rest) (length l) = l ++ rest.
Proof. induction l as [|y l IH]; simpl; [done|]. by rewrite IH. Qed.

Lemma on_handlers (t : string) h w :
  handlers_for t (turn (on t h) w) = handlers_for t w ++ [h] /\
  trace (turn (on t h) w) = trace w /\ app (turn (on t h) w) = app w.
Proof.
  unfold turn, on, bind, set_this, handlers_for; simpl. split; [|done].
  destruct (messageHandlers (this w) !! t) eqn:E; simpl.
  - by rewrite E, lookup_insert_eq.
  - by rewrite !lookup_insert_eq.
Qed.

Lemma unsubscribe_handlers (t : string) h (pre rest : list (handler W)) w :
  handlers_for t w = pre ++ h :: rest ->
  indexOf pre h = None ->
  handlers_for t (turn (unsubscribe t h) w) = pre ++ rest /\
  trace (turn (unsubscribe t h) w) = trace w /\
  app (turn (unsubscribe t h) w) = app w.
Proof.
  intros Hl Hfresh. unfold turn, unsubscribe, set_this, handlers_for in *. simpl.
  split; [|done].
  destruct (messageHandlers (this w) !! t) as [l|] eqn:E; simpl in Hl.
  - subst l. rewrite indexOf_app_fresh by done. simpl.
    rewrite lookup_insert_eq. simpl. apply splice1_app.
  - by destruct pre.
Qed.

Lemma unsubscribe_other_type (t t' : string) h w :
  t <> t' ->
  handlers_for t' (turn (unsubscribe t h) w) = handlers_for t' w.
Proof.
  intros Hne. unfold turn, unsubscribe, set_this, handlers_for. cbn [fst this].
  destruct (messageHandlers (this w) !! t) as [l|]; [|done].
  destruct (indexOf l h); [|done]. cbn. by rewrite lookup_insert_ne.
Qed.

Lemma on_other_type (t t' : string) h w :
  t <> t' ->
  handlers_for t' (turn (on t h) w) = handlers_for t' w.
Proof.
  intros Hne. unfold turn, on, bind, set_this, handlers_for. simpl.
  rewrite lookup_insert_ne by done.
  destruct (messageHandlers (this w) !! t); simpl; [done|].
  by rewrite lookup_insert_ne.
Qed.

(* ---- Subscribers that call the manager, short of unsubscribing. ---- *)

Lemma grows_refl (t : string) w : grows t w w.
Proof. by repeat split. Qed.

Lemma grows_trans (t : string) w (w1 w2 : world W) :
  grows t w w1 -> grows t w1 w2 -> grows t w w2.
Proof.
  intros (A1 & A2 & A3) (B1 & B2 & B3). split; [by etrans|].
  split; congruence.
Qed.

(* Every method but the cleanup of a subscription to [t] leaves the
   handlers of [t] in place. *)
Lemma perform_grows (t : string) (c : method (handler W)) w :
  keepsMethod t c -> grows t w (fst (perform c w)).
Proof.
  unfold grows. destruct c as [| |m|t' h|t' h]; cbn [perform keepsMethod]; intros Hc.
  - unfold connect, bind, gets, set_this, effect_, set_sockets, ret. cbn [fst snd].
    destruct (isConnecting (this w) || ws_is_open w); cbn; [done|].
    split; [done|]. split; [done|]. rewrite invoked_app. cbn. by rewrite app_nil_r.
  - unfold close, bind, gets, transport_close, effect_, set_sockets, set_this, ret.
    cbn [fst snd]. destruct (ws (this w)); cbn; [|done].
    split; [done|]. split; [done|]. rewrite invoked_app. cbn. by rewrite app_nil_r.
  - unfold send, bind, gets, effect_. cbn [fst snd].
    destruct (ws_is_open w); cbn; (split; [done|]); (split; [done|]);
      rewrite invoked_app; cbn; by rewrite app_nil_r.
  - destruct (on_handlers t' h w) as (H1 & H2 & H3).
    fold (turn (on t' h) w). rewrite H2, H3. split; [|done].
    destruct (decide (t' = t)) as [->|Hne].
    + rewrite H1. by apply prefix_app_r.
    + by rewrite on_other_type.
  - fold (turn (unsubscribe t' h) w). rewrite unsubscribe_other_type by done.
    split; [done|]. unfold turn, unsubscribe, set_this. cbn [fst].
    by destruct (messageHandlers (this w) !! t') as [l|]; [destruct (indexOf l h)|].
Qed.

(* One guarded call of such a subscriber: it runs once, and a throw is
   swallowed. *)
Lemma guarded_call_grows (t : string) h (m : payload) w :
  keeps t h ->
  let r := try_catch (call h m) (effect_ ConsoleError) w in
  snd r = Val tt /\
  handlers_for t w `prefix_of` handlers_for t (fst r) /\
  app (fst r) = act h m (app w) /\
  invoked (trace (fst r)) = invoked (trace w) ++ [hid h].
Proof.
  intros Hk. specialize (Hk m (app w)). cbv zeta.
  unfold try_catch, call, bind, effect_, run_body, set_app. cbn [fst snd app].
  unfold asks, act in *. destruct (hcall h m (app w)) as [[a asked] o].
  cbn [fst snd] in *. unfold bind. cbn [this sockets timers app trace].
  match goal with |- context [forEach asked perform ?w0] =>
    destruct (asked_keeps (grows t) (keepsMethod t) asked (grows_refl t)
                (grows_trans t) (perform_grows t) Hk w0) as ((G1 & G2 & G3) & _);
    destruct (forEach asked perform w0) as [w1 r1] end.
  cbn [fst snd this app trace] in *.
  assert (Hi : invoked (trace w1) = invoked (trace w) ++ [hid h]).
  { rewrite G3, invoked_app. done. }
  change (handlers_for t (World (this w) (sockets w) (timers w) a
                            (trace w ++ [Invoke (hid h) m])))
    with (handlers_for t w) in G1.
  destruct o; cbn [fst snd this app trace]; [done|].
  split; [done|]. split; [done|]. split; [done|].
  rewrite invoked_app, Hi. cbn. by rewrite app_nil_r.
Qed.

Lemma forEachLive_at (t : string) (f : handler W -> M W unit) (k n : nat) w h :
  handlers_for t w !! k = Some h ->
  forEachLive t f k (S n) w = bind (f h) (fun _ => forEachLive t f (S k) n) w.
Proof. intros H. cbn [forEachLive]. unfold bind at 1, gets. by rewrite H. Qed.

(* The guarded loop, from index [k] on, over an array that starts with
   [hs]: the handlers of [hs] from [k] on are called, in order. *)
Lemma loop_grows (t : string) (m : payload) : forall n k w hs,
  hs `prefix_of` handlers_for t w ->
  length hs = k + n ->
  Forall (keeps t) (drop k hs) ->
  let r := forEachLive t (fun h => try_catch (call h m) (effect_ ConsoleError)) k n w in
  app (fst r) = deliver (drop k hs) m (app w) /\
  invoked (trace (fst r)) = invoked (trace w) ++ map hid (drop k hs).
Proof.
  induction n as [|n IH]; intros k w hs Hpre Hlen Hall; cbv zeta.
  - rewrite drop_ge by lia. cbn. by rewrite app_nil_r.
  - destruct (lookup_lt_is_Some_2 hs k) as [h Hh]; [lia|].
    rewrite (forEachLive_at t _ k n w h) by apply (prefix_lookup_Some _ _ _ _ Hh Hpre).
    rewrite (drop_S _ _ _ Hh) in *. apply Forall_cons_1 in Hall as [Hkh Hall].
    destruct (guarded_call_grows t h m w Hkh) as (Hv & G1 & G2 & G3).
    unfold bind.
    destruct (try_catch (call h m) (effect_ ConsoleError) w) as [w1 r1].
    cbn [fst snd] in *. subst r1.
    destruct (IH (S k) w1 hs) as [E1 E2]; [by etrans | lia | done |].
    cbv zeta in E1, E2. rewrite E1, E2, G2, G3. cbn [deliver fold_left map].
    by rewrite <- app_assoc.
Qed.

(* handleMessage hands the frame to every handler subscribed to its
   type when the frame arrives, in registration order, when none of
   them unsubscribes a handler of that type while it runs. *)
Lemma handleMessage_grows (m : payload) (t : string) w :
  type m = Some t ->
  Forall (keeps t) (handlers_for t w) ->
  app (turn (handleMessage m) w) = deliver (handlers_for t w) m (app w) /\
  invoked (trace (turn (handleMessage m) w)) =
    invoked (trace w) ++ map hid (handlers_for t w).
Proof.
  intros Ht Hall. unfold turn. rewrite (handleMessage_unfold m t) by done.
  match goal with |- context [forEachLive t ?f 0 ?n ?w0] =>
    destruct (loop_grows t m n 0 w0 (handlers_for t w)) as [E1 E2];
      [done | done | done |] end.
  cbv zeta in E1, E2. rewrite E1, E2. cbn [app trace drop].
  split; [done|]. rewrite invoked_app. cbn. by rewrite app_nil_r.
Qed.

(* What a frame does when [more] is subscribed after the handlers
   [hs]. *)
Lemma handleMessage_after (m : payload) (t : string) hs (more : list (handler W))
    w (w' : world W) :
  type m = Some t ->
  handlers_for t w = hs -> handlers_for t w' = hs ++ more ->
  trace w' = trace w -> app w' = app w ->
  Forall (keeps t) hs -> Forall (keeps t) more ->
  forall h, indexOf hs h = None ->
    calls (hid h) (trace (turn (handleMessage m) w')) =
      calls (hid h) (trace w') + count_occ Nat.eq_dec (map hid more) (hid h) /\
    app (turn (handleMessage m) w') = deliver more m (app (turn (handleMessage m) w)).
Proof.
  intros Ht Hw Hw' Htr Happ Hq Hqm h Hfresh.
  destruct (handleMessage_grows m t w Ht) as (E1 & _); [by rewrite Hw|].
  destruct (handleMessage_grows m t w' Ht) as (E1' & E2').
  { rewrite Hw'. by apply Forall_app. }
  rewrite E1, E1', Hw, Hw', Happ, deliver_app. split; [|done].
  unfold calls. rewrite E2', Hw', map_app, !count_occ_app.
  rewrite (indexOf_None _ _ Hfresh). lia.
Qed.

(** C10 (amended): subscribing the same function twice to an event type
    lists it twice, so a matching inbound frame calls it twice, after
    the handlers subscribed before it; the cleanup function of a
    registration removes one occurrence and the handler stays
    subscribed once, and is then called once.  This holds when no
    subscriber of the type calls, from inside its function, the cleanup
    function of a subscription to that type; the subscribers may throw,
    and may subscribe, send, connect and close while they run. *)
Theorem duplicate_subscription w (t : string) h (m : payload) :
  type m = Some t ->
  indexOf (handlers_for t w) h = None ->
  Forall (keeps t) (handlers_for t w) ->
  keeps t h ->
  let w2 := turn (on t h) (turn (on t h) w) in
  let w1 := turn (unsubscribe t h) w2 in
  handlers_for t w2 = handlers_for t w ++ [h; h] /\
  calls (hid h) (trace (turn (handleMessage m) w2)) = calls (hid h) (trace w2) + 2 /\
  app (turn (handleMessage m) w2) =
    act h m (act h m (app (turn (handleMessage m) w))) /\
  handlers_for t w1 = handlers_for t w ++ [h] /\
  calls (hid h) (trace (turn (handleMessage m) w1)) = calls (hid h) (trace w1) + 1 /\
  app (turn (handleMessage m) w1) = act h m (app (turn (handleMessage m) w)).
Proof.
  intros Ht Hfresh Hq Hh w2 w1.
  destruct (on_handlers t h w) as (A1 & A2 & A3).
  destruct (on_handlers t h (turn (on t h) w)) as (B1 & B2 & B3).
  assert (H2 : handlers_for t w2 = handlers_for t w ++ [h; h]).
  { subst w2. by rewrite B1, A1, <- app_assoc. }
  destruct (unsubscribe_handlers t h (handlers_for t w) [h] w2) as (C1 & C2 & C3);
    trivial.
  assert (Hone : count_occ Nat.eq_dec (map hid [h]) (hid h) = 1).
  { cbn. by destruct (Nat.eq_dec (hid h) (hid h)). }
  assert (Htwo : count_occ Nat.eq_dec (map hid [h; h]) (hid h) = 2).
  { cbn. by destruct (Nat.eq_dec (hid h) (hid h)). }
  assert (T2 : trace w2 = trace w) by (subst w2; by rewrite B2, A2).
  assert (S2 : app w2 = app w) by (subst w2; by rewrite B3, A3).
  assert (T1 : trace w1 = trace w) by (subst w1; by rewrite C2, T2).
  assert (S1 : app w1 = app w) by (subst w1; by rewrite C3, S2).
  assert (Q2 : Forall (keeps t) [h; h]) by (by repeat constructor).
  assert (Q1 : Forall (keeps t) [h]) by (by repeat constructor).
  destruct (handleMessage_after m t (handlers_for t w) [h; h] w w2
              Ht eq_refl H2 T2 S2 Hq Q2 h Hfresh) as [D1 D2].
  destruct (handleMessage_after m t (handlers_for t w) [h] w w1
              Ht eq_refl C1 T1 S1 Hq Q1 h Hfresh) as [E1 E2].
  rewrite D1, D2, E1, E2, Htwo, Hone. by repeat split.
Qed.
End DispatchFacts.

(** C10 (amended), for a handler subscribed twice to [agent_message] on
    a new manager. *)
Lemma duplicate_subscription_witness :
  let h := Scenario.listener in
  let w := WS.World (WS.constructor "s1") [] [] [] [] in
  let w2 := WS.turn (WS.on "agent_message" h) (WS.turn (WS.on "agent_message" h) w) in
  let w1 := WS.turn (WS.unsubscribe "agent_message" h) w2 in
  WS.handlers_for "agent_message" w2 = [h; h] /\
  WS.calls 2 (WS.trace (WS.turn (WS.handleMessage (Scenario.frame "agent_message")) w2)) = 2 /\
  WS.app (WS.turn (WS.handleMessage (Scenario.frame "agent_message")) w2) = [2; 2] /\
  WS.handlers_for "agent_message" w1 = [h] /\
  WS.calls 2 (WS.trace (WS.turn (WS.handleMessage (Scenario.frame "agent_message")) w1)) = 1 /\
  WS.app (WS.turn (WS.handleMessage (Scenario.frame "agent_message")) w1) = [2].
Proof.
  exact (duplicate_subscription (WS.World (WS.constructor "s1") [] [] [] [])
           "agent_message" Scenario.listener (Scenario.frame "agent_message")
           eq_refl eq_refl (List.Forall_nil _) (fun _ _ => List.Forall_nil _)).
Defined.

(** C10 as stated fails: a function registered twice that calls the
    cleanup function of its subscription when it runs is called once,
    for the loop of handleMessage runs over the array the cleanup
    shortens. *)
Lemma cleanup_during_dispatch_skips_handler : ~ Scenario.registeredTwiceCalledTwice.
Proof.
  intros H.
  specialize (H (WS.World (WS.constructor "s1") [] [] [] []) "agent_message"
                Scenario.leaver (Scenario.frame "agent_message") eq_refl eq_refl).
  vm_compute in H. discriminate H.
Qed.

Section Defects.
Import Protocol WS Scenario.

(** C2: a throwing subscriber does not stop the later ones, and the
    dispatch does not throw, for frames routed by handleMessage; for
    the manager's own [connected], [error] and [connection_failed]
    events, routed by notifyHandlers, the first subscriber's exception
    escapes the callback and the later subscriber is never called. *)
Theorem notifyHandlers_lets_exceptions_escape :
  (* inbound frame: both subscribers run, nothing escapes *)
  (let w := turn (fire_open 0) (turn connect (subscribed "agent_message")) in
   app (turn (onmessage (Some (frame "agent_message"))) w) = [1; 2] /\
   escapes (onmessage (Some (frame "agent_message"))) w = false) /\
  (* connected *)
  (let w := turn connect (subscribed "connected") in
   app (turn (fire_open 0) w) = [1] /\
   calls (hid listener) (trace (turn (fire_open 0) w)) = 0 /\
   escapes (fire_open 0) w = true) /\
  (* error *)
  (let w := turn connect (subscribed "error") in
   app (turn onerror w) = [1] /\
   calls (hid listener) (trace (turn onerror w)) = 0 /\
   escapes onerror w = true) /\
  (* connection_failed *)
  (let w := neverReopens false 5 (turn connect (subscribed "connection_failed")) in
   app (turn (fire_close 5) w) = [1] /\
   calls (hid listener) (trace (turn (fire_close 5) w)) = 0 /\
   escapes (fire_close 5) w = true).
Proof. vm_compute. repeat split. Qed.

(** C3: after [close()] the close event of the released transport
    still runs the reconnection logic: with budget left it arms a
    reconnect whose timer opens a new transport, and with the budget
    spent it emits [connection_failed]. *)
Theorem close_does_not_suppress_reconnect :
  (let w := turn (fire_close 0) (turn close connected) in
   ws (this (turn close connected)) = None /\
   reconnectEvents (trace w) = [SetTimeout 2000] /\
   timers w = [2000] /\
   ws (this (turn fire_timer w)) = Some 1 /\
   sockets (turn fire_timer w) = [CLOSED; CONNECTING]) /\
  (let w := neverReopens false 5 connected in
   reconnectAttempts (this w) = 5 /\
   ws (this w) = Some 5 /\
   reconnectEvents (trace (turn (fire_close 5) (turn close w))) =
     reconnectEvents (trace w) ++ [Notify "connection_failed"]).
Proof. vm_compute. repeat split. Qed.
End Defects.

(* ===================================================================== *)
(* Further properties of the connection manager.                         *)
(* ===================================================================== *)

Section SessionFacts.
Import Protocol WS Events.
Context {W : Type}.
Implicit Types (w : world W) (h : handler W) (hs : list (handler W)).



(** X2: the message callback never lets an exception escape, whatever
    the handlers do, and leaves the timers and the retry counter as
    they were; when the handlers subscribed to the frame's type do not
    call the manager from inside their functions, the manager and the
    transports stay as they were and the frame is handed to every one
    of these handlers, once each and in registration order, whether
    they throw or not; a frame that does not parse is reported and
    handed to nobody. *)
Theorem onmessage_routes_frames (frame : option payload) w :
  escapes (onmessage frame) w = false /\
  timers (turn (onmessage frame) w) = timers w /\
  reconnectAttempts (this (turn (onmessage frame) w)) = reconnectAttempts (this w) /\
  (Forall quiet (recipients frame w) ->
   this (turn (onmessage frame) w) = this w /\
   sockets (turn (onmessage frame) w) = sockets w /\
   invoked (trace (turn (onmessage frame) w)) =
     invoked (trace w) ++ map hid (recipients frame w) /\
   app (turn (onmessage frame) w) =
     match frame with
     | Some m => deliver (recipients frame w) m (app w)
     | None => app w
     end) /\
  (frame = None -> trace (turn (onmessage frame) w) = trace w ++ [ConsoleError]).
Proof.
  destruct frame as [m|].
  - unfold turn, escapes, onmessage, try_catch.
    destruct (handleMessage_spares m w) as (Hv & H1 & H2 & _).
    assert (Hquiet : Forall quiet (recipients (Some m) w) ->
              this (fst (handleMessage m w)) = this w /\
              sockets (fst (handleMessage m w)) = sockets w /\
              invoked (trace (fst (handleMessage m w))) =
                invoked (trace w) ++ map hid (recipients (Some m) w) /\
              app (fst (handleMessage m w)) = deliver (recipients (Some m) w) m (app w)).
    { unfold recipients. destruct (type m) as [t|] eqn:Ht.
      - intros Hq. destruct (handleMessage_calls_all m t w Ht Hq) as (tr & -> & I & _).
        cbn [fst this sockets trace app]. rewrite invoked_app.
        change (invoked (ConsoleLog :: tr)) with (invoked tr). by rewrite I.
      - intros _. rewrite handleMessage_untyped by done.
        cbn [fst this sockets trace app]. rewrite invoked_app. cbn.
        by rewrite app_nil_r. }
    destruct (handleMessage m w) as [w1 r]. cbn [fst snd] in *. subst r.
    cbn [fst snd]. split; [done|]. split; [done|]. split; [done|].
    split; [exact Hquiet | done].
  - unfold turn, escapes, onmessage, try_catch, throw, effect_. cbn.
    rewrite invoked_app. cbn. rewrite !app_nil_r. by repeat split.
Qed.


(* What the open event does, whatever the subscribers of [connected]
   do. *)
Lemma fire_open_spares (sid : nat) w :
  let w' := turn (fire_open sid) w in
  timers w' = timers w /\
  reconnectAttempts (this w') = 0 /\
  maxReconnectAttempts (this w') = maxReconnectAttempts (this w) /\
  reconnectEvents (trace w') = reconnectEvents (trace w).
Proof.
  unfold turn, fire_open, onopen, bind, set_readyState, set_sockets,
    effect_, set_this, gets. cbn [fst snd].
  match goal with |- context [notifyHandlers ?t ?d ?w0] =>
    destruct (notifyHandlers_spares t d w0) as (F1 & F2 & F3 & F4) end.
  cbv zeta in *. rewrite F1, F2, F3, F4. cbn.
  rewrite reconnectEvents_app. cbn. by rewrite !app_nil_r.
Qed.

(** X4: a successful reopen gives the whole retry budget back: whatever
    happened before, once a transport has opened the next closure arms
    a reconnect after 2000 ms, the delay of a first attempt. *)
Theorem reopen_restarts_schedule w (opened closed : nat) :
  0 < maxReconnectAttempts (this w) ->
  let w1 := turn (fire_open opened) w in
  let w2 := turn (fire_close closed) w1 in
  reconnectAttempts (this w1) = 0 /\
  reconnectAttempts (this w2) = 1 /\
  timers w2 = timers w ++ [2000] /\
  reconnectEvents (trace w2) = reconnectEvents (trace w) ++ [SetTimeout 2000].
Proof.
  intros Hmax w1 w2.
  destruct (fire_open_spares opened w) as (Htimers & Hatt & Hm & Hevents).
  fold w1 in Htimers, Hatt, Hm, Hevents.
  subst w2. rewrite fire_close_retry by lia.
  rewrite Hatt, Htimers. cbn. rewrite reconnectEvents_app, Hevents. by cbn.
Qed.
End SessionFacts.

Section InvariantFacts.
Import Protocol WS Events.
Context {W : Type}.
Implicit Types (w : world W) (h : handler W) (hs : list (handler W)).

(* ---- The manager stays well formed. ---- *)

Lemma wellFormed_noise w (a : W) (tr : list effect) :
  wellFormed w -> wellFormed (World (this w) (sockets w) (timers w) a tr).
Proof. done. Qed.

Lemma perform_wellFormed (c : method (handler W)) w :
  wellFormed w -> wellFormed (fst (perform c w)).
Proof.
  intros (Hmax & Hatt & Hws & Htimers). unfold wellFormed.
  destruct c as [| |m|t h|t h]; cbn [perform].
  - unfold connect, bind, gets, set_this, effect_, set_sockets, ret. cbn [fst snd].
    destruct (isConnecting (this w) || ws_is_open w); cbn.
    + by repeat split.
    + repeat split; trivial. intros sid [= <-]. rewrite length_app. cbn. lia.
  - unfold close, bind, gets, transport_close, effect_, set_sockets, set_this, ret.
    cbn [fst snd]. destruct (ws (this w)) as [sid|] eqn:E; cbn.
    + repeat split; trivial. done.
    + repeat split; trivial. by rewrite E.
  - unfold send, bind, gets, effect_. cbn [fst snd].
    destruct (ws_is_open w); cbn; by repeat split.
  - unfold on, bind, set_this. cbn [fst snd].
    destruct (messageHandlers (this w) !! t); cbn; by repeat split.
  - unfold unsubscribe, set_this. cbn [fst snd].
    destruct (messageHandlers (this w) !! t) as [l|]; cbn; [|by repeat split].
    destruct (indexOf l h); cbn; by repeat split.
Qed.

Lemma loop_wellFormed (t : string) (data : payload) (n k : nat) w :
  (wellFormed w -> wellFormed (fst (forEachLive t (fun h => call h data) k n w))) /\
  (wellFormed w ->
   wellFormed (fst (forEachLive t
                      (fun h => try_catch (call h data) (effect_ ConsoleError)) k n w))).
Proof.
  set (R := fun a b : world W => wellFormed a -> wellFormed b).
  assert (Hcall : forall h w0,
            R w0 (fst (call h data w0)) /\
            R w0 (fst (try_catch (call h data) (effect_ ConsoleError) w0))).
  { intros h w0.
    destruct (call_keeps R (fun _ => True) h data w0) as (H1 & H2 & _).
    - unfold R. auto.
    - unfold R. auto.
    - unfold R. intros c w1 _. apply perform_wellFormed.
    - unfold R. intros w1 a e _. apply wellFormed_noise.
    - by apply Forall_true.
    - by split. }
  split; apply (forEachLive_keeps R); try done; unfold R; auto;
    intros h w0 k0 _; apply Hcall.
Qed.

Lemma notifyHandlers_wellFormed (t : string) (data : payload) w :
  wellFormed w -> wellFormed (fst (notifyHandlers t data w)).
Proof. intros Hw. rewrite notifyHandlers_unfold. by apply loop_wellFormed. Qed.

Lemma handleMessage_wellFormed (m : payload) w :
  wellFormed w -> wellFormed (fst (handleMessage m w)).
Proof.
  intros Hw. destruct (type m) as [t|] eqn:Ht.
  - rewrite (handleMessage_unfold m t) by done. by apply loop_wellFormed.
  - by rewrite handleMessage_untyped.
Qed.

(* Every call and every event keeps the manager well formed. *)
Lemma exec_wellFormed (o : op W) w :
  wellFormed w -> wellFormed (turn (exec o) w).
Proof.
  intros Hw.
  destruct o as [| |m|t h|t h|sid|frame| |sid|]; cbn [exec].
  - apply (perform_wellFormed callConnect), Hw.
  - apply (perform_wellFormed callClose), Hw.
  - apply (perform_wellFormed (callSend m)), Hw.
  - apply (perform_wellFormed (callOn t h)), Hw.
  - apply (perform_wellFormed (callCleanup t h)), Hw.
  - (* open event *)
    unfold turn, fire_open, onopen, bind, set_readyState, set_sockets,
      effect_, set_this, gets. cbn [fst snd].
    apply notifyHandlers_wellFormed.
    destruct Hw as (Hmax & Hatt & Hws & Htimers). unfold wellFormed. cbn.
    repeat split; trivial; [lia|]. intros s Hs. rewrite length_insert. by apply Hws.
  - (* message event *)
    unfold turn, onmessage, try_catch. destruct frame as [m|].
    + destruct (handleMessage_spares m w) as (Hv & _).
      pose proof (handleMessage_wellFormed m w Hw) as Hm.
      destruct (handleMessage m w) as [w1 r]. cbn [fst snd] in *. by subst r.
    + unfold throw, effect_. cbn [fst snd]. by apply wellFormed_noise.
  - (* error event *)
    unfold turn, onerror, bind, effect_. cbn [fst snd].
    by apply notifyHandlers_wellFormed, wellFormed_noise.
  - (* close event *)
    destruct Hw as (Hmax & Hatt & Hws & Htimers).
    destruct (Nat.ltb_spec (reconnectAttempts (this w)) (maxReconnectAttempts (this w)))
      as [Hlt|Hge].
    + rewrite fire_close_retry by done. unfold wellFormed. cbn.
      repeat split; trivial; [lia | |].
      * intros s Hs. rewrite length_insert. by apply Hws.
      * apply Forall_app. split; [done|]. constructor; [|done].
        exists (S (reconnectAttempts (this w))). split; [lia|done].
    + apply Nat.ltb_ge in Hge.
      unfold turn, fire_close, onclose, bind, set_readyState, set_sockets, effect_,
        set_this, gets. cbn [fst snd].
      cbn [this with_isConnecting reconnectAttempts maxReconnectAttempts].
      rewrite Hge. apply notifyHandlers_wellFormed. unfold wellFormed. cbn.
      repeat split; trivial. intros s Hs. rewrite length_insert. by apply Hws.
  - (* timer *)
    unfold turn, fire_timer, bind, gets. cbn [fst snd].
    destruct (timers w) as [|d rest] eqn:Et; cbn [fst snd]; [done|].
    unfold set_timers. cbn [fst snd].
    apply (perform_wellFormed callConnect).
    destruct Hw as (Hmax & Hatt & Hws & Htimers). unfold wellFormed. cbn.
    rewrite Et in Htimers. inversion Htimers; subst. by repeat split.
Qed.

Lemma run_keeps (os : list (op W)) : forall w,
  wellFormed w -> wellFormed (run os w).
Proof.
  unfold run. induction os as [|o os IH]; intros w Hw; [done|].
  cbn [fold_left]. apply IH. by apply exec_wellFormed.
Qed.

Lemma start_well_formed (sessionId : string) (a : W) : wellFormed (start sessionId a).
Proof. unfold wellFormed, start. cbn. repeat split; trivial; [lia | done]. Qed.

(** X5: whatever calls are made and whatever events arrive, in any
    order, and whatever the subscribers call while they run, a manager
    keeps its budget of five attempts and never counts past it, only
    ever refers to a transport it created, and every pending reconnect
    timer has a delay of 2000, 4000, 6000, 8000 or 10000 ms. *)
Theorem session_stays_well_formed (sessionId : string) (a : W) (os : list (op W)) :
  wellFormed (run os (start sessionId a)).
Proof. apply run_keeps, start_well_formed. Qed.
End InvariantFacts.

Section TransmissionFacts.
Import Protocol WS Events.
Context {W : Type}.
Implicit Types (w : world W) (h : handler W) (hs : list (handler W)).

(* ---- Only [send] hands anything to a transport. ---- *)

Lemma unsubscribe_absent (t : string) h w :
  indexOf (handlers_for t w) h = None ->
  handlers_for t (turn (unsubscribe t h) w) = handlers_for t w.
Proof.
  unfold turn, unsubscribe, set_this, handlers_for. cbn [fst this].
  destruct (messageHandlers (this w) !! t) as [l|] eqn:E; cbn; [|by rewrite E].
  intros ->. by rewrite E.
Qed.


Lemma sendFreeWorld_same w (w' : world W) :
  messageHandlers (this w') = messageHandlers (this w) ->
  sendFreeWorld w -> sendFreeWorld w'.
Proof. intros E Hw t. unfold handlers_for. rewrite E. apply Hw. Qed.

Lemma splice1_Forall {A} (P : A -> Prop) (l : list A) (i : nat) :
  Forall P l -> Forall P (splice1 l i).
Proof.
  intros Hl. revert i. induction Hl as [|x l Hx Hl IH]; intros i; [by destruct i|].
  destruct i; cbn; [done|]. by constructor.
Qed.

Lemma perform_sendFree (c : method (handler W)) w :
  sendFreeMethod c ->
  sendFreeWorld w ->
  sendFreeWorld (fst (perform c w)) /\
  transmitted (trace (fst (perform c w))) = transmitted (trace w).
Proof.
  intros Hc Hw. destruct Hc as [| |t h Hh|t h]; cbn [perform].
  - unfold connect, bind, gets, set_this, effect_, set_sockets, ret. cbn [fst snd].
    destruct (isConnecting (this w) || ws_is_open w);
      cbn -[transmitted sendFreeWorld]; [done|].
    split; [by apply (sendFreeWorld_same w)|].
    rewrite transmitted_app. cbn. by rewrite app_nil_r.
  - unfold close, bind, gets, transport_close, effect_, set_sockets, set_this, ret.
    cbn [fst snd]. destruct (ws (this w)); cbn -[transmitted sendFreeWorld]; [|done].
    split; [by apply (sendFreeWorld_same w)|].
    rewrite transmitted_app. cbn. by rewrite app_nil_r.
  - change (fst (on t h w)) with (turn (on t h) w).
    split; [|by destruct (on_handlers t h w) as (_ & -> & _)].
    intros t'. destruct (decide (t = t')) as [<-|Hne].
    + destruct (on_handlers t h w) as (-> & _). apply Forall_app. split; [apply Hw|].
      by constructor.
    + rewrite on_other_type by done. apply Hw.
  - change (fst (unsubscribe t h w)) with (turn (unsubscribe t h) w).
    split; [|done].
    intros t'. destruct (decide (t = t')) as [<-|Hne].
    + pose proof (Hw t) as Ht. unfold turn, unsubscribe, set_this, handlers_for in *.
      cbn [fst this].
      destruct (messageHandlers (this w) !! t) as [l|] eqn:E; [|by rewrite E].
      destruct (indexOf l h) as [i|]; [|by rewrite E].
      cbn. rewrite lookup_insert_eq. cbn. by apply splice1_Forall.
    + rewrite unsubscribe_other_type by done. apply Hw.
Qed.

Lemma silently_refl w : silently w w.
Proof. by intros Hw. Qed.

Lemma silently_trans w (w1 w2 : world W) :
  silently w w1 -> silently w1 w2 -> silently w w2.
Proof.
  intros H1 H2 Hw. destruct (H1 Hw) as [Hw1 E1]. destruct (H2 Hw1) as [Hw2 E2].
  split; [done|]. by rewrite E2.
Qed.

Lemma silently_effect w (a : W) (e : effect) :
  transmitted [e] = [] ->
  silently w (World (this w) (sockets w) (timers w) a (trace w ++ [e])).
Proof.
  intros He Hw. split; [by apply (sendFreeWorld_same w)|].
  cbn [trace]. by rewrite transmitted_app, He, app_nil_r.
Qed.

Lemma call_silently h (data : payload) w :
  sendFree h ->
  silently w (fst (call h data w)) /\
  silently w (fst (try_catch (call h data) (effect_ ConsoleError) w)).
Proof.
  intros Hh. destruct Hh as [h Hasks].
  destruct (call_keeps silently sendFreeMethod h data w) as (H1 & H2 & _).
  - apply silently_refl.
  - apply silently_trans.
  - intros c w0 Hc Hw0. by apply perform_sendFree.
  - intros w0 a e He. apply silently_effect. by destruct He as [->|(i & d & ->)].
  - apply Hasks.
  - by split.
Qed.

Lemma loop_silently (t : string) (data : payload) (n k : nat) w :
  silently w (fst (forEachLive t (fun h => call h data) k n w)) /\
  silently w (fst (forEachLive t
                     (fun h => try_catch (call h data) (effect_ ConsoleError)) k n w)).
Proof.
  assert (Hstep : forall h w0 k0, handlers_for t w0 !! k0 = Some h ->
            sendFreeWorld w0 -> sendFree h).
  { intros h w0 k0 Hl Hw0. by eapply Forall_lookup_1; [apply (Hw0 t)|]. }
  split; apply (forEachLive_keeps silently);
    try apply silently_refl; try apply silently_trans;
    intros h w0 k0 Hl Hw0; by apply (call_silently h data w0 (Hstep h w0 k0 Hl Hw0)).
Qed.

Lemma notifyHandlers_silently (t : string) (data : payload) w :
  silently w (fst (notifyHandlers t data w)).
Proof.
  rewrite notifyHandlers_unfold.
  eapply silently_trans; [by apply (silently_effect w (app w) (Notify t))|].
  apply loop_silently.
Qed.

Lemma handleMessage_silently (m : payload) w :
  silently w (fst (handleMessage m w)).
Proof.
  destruct (type m) as [t|] eqn:Ht.
  - rewrite (handleMessage_unfold m t) by done.
    eapply silently_trans; [by apply (silently_effect w (app w) ConsoleLog)|].
    apply loop_silently.
  - rewrite handleMessage_untyped by done.
    by apply (silently_effect w (app w) ConsoleLog).
Qed.

(* A call other than [send], or an event, transmits nothing. *)
Lemma exec_silently (o : op W) w :
  tame o -> isSend o = false -> silently w (turn (exec o) w).
Proof.
  intros Ho Hs.
  destruct o as [| |m|t h|t h|sid|frame| |sid|]; cbn [exec]; try discriminate Hs.
  - intros Hw. by apply (perform_sendFree callConnect); [constructor|].
  - intros Hw. by apply (perform_sendFree callClose); [constructor|].
  - intros Hw. by apply (perform_sendFree (callOn t h)); [constructor|].
  - intros Hw. by apply (perform_sendFree (callCleanup t h)); [constructor|].
  - (* open event *)
    unfold turn, fire_open, onopen, bind, set_readyState, set_sockets,
      effect_, set_this, gets. cbn [fst snd].
    eapply silently_trans; [|apply notifyHandlers_silently].
    intros Hw. split; [by apply (sendFreeWorld_same w)|].
    cbn [trace]. rewrite transmitted_app. cbn. by rewrite app_nil_r.
  - (* message event *)
    unfold turn, onmessage, try_catch. destruct frame as [m|].
    + destruct (handleMessage_spares m w) as (Hv & _).
      pose proof (handleMessage_silently m w) as Hm.
      destruct (handleMessage m w) as [w1 r]. cbn [fst snd] in *. by subst r.
    + unfold throw, effect_. cbn [fst snd].
      by apply (silently_effect w (app w) ConsoleError).
  - (* error event *)
    unfold turn, onerror, bind, effect_. cbn [fst snd].
    eapply silently_trans; [|apply notifyHandlers_silently].
    by apply (silently_effect w (app w) ConsoleError).
  - (* close event *)
    destruct (Nat.ltb_spec (reconnectAttempts (this w)) (maxReconnectAttempts (this w)))
      as [Hlt|Hge].
    + rewrite fire_close_retry by done. intros Hw.
      split; [by apply (sendFreeWorld_same w)|].
      cbn [trace]. rewrite transmitted_app. cbn. by rewrite app_nil_r.
    + apply Nat.ltb_ge in Hge.
      unfold turn, fire_close, onclose, bind, set_readyState, set_sockets, effect_,
        set_this, gets. cbn [fst snd].
      cbn [this with_isConnecting reconnectAttempts maxReconnectAttempts].
      rewrite Hge. eapply silently_trans; [|apply notifyHandlers_silently].
      intros Hw. split; [by apply (sendFreeWorld_same w)|].
      cbn [trace]. rewrite transmitted_app. cbn. by rewrite app_nil_r.
  - (* timer *)
    unfold turn, fire_timer, bind, gets. cbn [fst snd].
    destruct (timers w) as [|d rest] eqn:Et; cbn [fst snd]; [apply silently_refl|].
    unfold set_timers. cbn [fst snd]. intros Hw.
    destruct (perform_sendFree callConnect
                (World (this w) (sockets w) rest (app w) (trace w))) as [H1 H2];
      [constructor | by apply (sendFreeWorld_same w) |].
    by split.
Qed.

(* [send] itself leaves the subscribers as they are. *)
Lemma exec_sendFree (o : op W) w :
  tame o -> sendFreeWorld w -> sendFreeWorld (turn (exec o) w).
Proof.
  intros Ho Hw. destruct (isSend o) eqn:Hs.
  - destruct o; try discriminate Hs. cbn [exec].
    apply (sendFreeWorld_same w); [|done].
    unfold turn, send, bind, gets, effect_. cbn [fst snd].
    by destruct (ws_is_open w).
  - by apply (exec_silently o w Ho Hs).
Qed.

Lemma run_sendFree (os : list (op W)) : forall w,
  Forall tame os -> sendFreeWorld w -> sendFreeWorld (run os w).
Proof.
  unfold run. induction os as [|o os IH]; intros w Hos Hw; [done|].
  inversion Hos; subst. cbn [fold_left]. apply IH; [done|]. by apply exec_sendFree.
Qed.

Lemma run_silently (os : list (op W)) : forall w,
  Forall tame os ->
  forallb (fun o => negb (isSend o)) os = true ->
  silently w (run os w).
Proof.
  unfold run. induction os as [|o os IH]; intros w Ht Hos; [apply silently_refl|].
  inversion Ht; subst. cbn [forallb] in Hos. apply andb_prop in Hos as [Ho Hos].
  cbn [fold_left]. eapply silently_trans; [|by apply IH].
  apply exec_silently; [done|]. by destruct (isSend o).
Qed.

(** X6: nothing reaches a transport except through [send]: when no
    subscriber of the session calls [send] from inside its function, or
    subscribes one that does, a stretch of the session in which the
    users of the manager do not call [send] transmits nothing, so a
    message that [send] dropped while the connection was down is not
    delivered later, by a reconnect or otherwise. *)
Theorem only_send_transmits (sessionId : string) (a : W) (before after : list (op W)) :
  Forall tame (before ++ after) ->
  forallb (fun o => negb (isSend o)) after = true ->
  transmitted (trace (run (before ++ after) (start sessionId a))) =
    transmitted (trace (run before (start sessionId a))).
Proof.
  intros Ht Hquiet. apply Forall_app in Ht as [Hb Ha].
  unfold run at 1. rewrite fold_left_app.
  apply (run_silently after); trivial.
  apply run_sendFree; [done|]. intros t. unfold handlers_for, start. cbn.
  by rewrite lookup_empty.
Qed.

(** X7: subscribing a handler that is not yet subscribed to the type and
    then calling the cleanup function restores the handlers of every
    type; calling the cleanup once more changes nothing. *)
Theorem subscribe_unsubscribe_round_trip (t t' : string) h w :
  indexOf (handlers_for t w) h = None ->
  let w1 := turn (unsubscribe t h) (turn (on t h) w) in
  handlers_for t' w1 = handlers_for t' w /\
  handlers_for t' (turn (unsubscribe t h) w1) = handlers_for t' w.
Proof.
  intros Hfresh w1.
  assert (H1 : handlers_for t w1 = handlers_for t w).
  { subst w1. destruct (on_handlers t h w) as [Hon _].
    destruct (unsubscribe_handlers t h (handlers_for t w) [] (turn (on t h) w))
      as [-> _]; trivial. by rewrite app_nil_r. }
  destruct (decide (t = t')) as [<-|Hne].
  - split; [done|]. rewrite unsubscribe_absent; [done|]. by rewrite H1.
  - subst w1. by rewrite !unsubscribe_other_type, on_other_type.
Qed.

(** X8: when a handler that is already subscribed is subscribed again,
    the cleanup function removes the older registration: the handler
    stays subscribed, but is now called after the handlers that used to
    follow it. *)
Theorem resubscribe_moves_handler_last (t : string) h
    (earlier later : list (handler W)) w :
  handlers_for t w = earlier ++ h :: later ->
  indexOf earlier h = None ->
  handlers_for t (turn (unsubscribe t h) (turn (on t h) w)) = earlier ++ later ++ [h].
Proof.
  intros Hl Hfresh.
  destruct (on_handlers t h w) as [Hon _]. rewrite Hl, <- app_assoc in Hon.
  by destruct (unsubscribe_handlers t h earlier (later ++ [h]) (turn (on t h) w)).
Qed.

(** X9: [close()] forgets the transport: until [connect()] is called
    again a [send] transmits nothing, a second [close()] does nothing,
    and [close()] on a manager without transport does nothing at all;
    it never throws. *)
Theorem close_forgets_transport (m : payload) w :
  ws (this (turn close w)) = None /\
  transmitted (trace (turn (send m) (turn close w))) = transmitted (trace w) /\
  turn close (turn close w) = turn close w /\
  (ws (this w) = None -> turn close w = w) /\
  escapes close w = false.
Proof.
  unfold turn, escapes, close, bind, gets, transport_close, effect_, set_sockets,
    set_this. cbn [fst snd].
  destruct (ws (this w)) as [sid|] eqn:E; cbn [fst snd].
  - unfold send, bind, gets, effect_, ws_is_open. cbn.
    rewrite !transmitted_app. cbn. by rewrite !app_nil_r.
  - unfold send, bind, gets, effect_, ws_is_open. cbn. rewrite E. cbn.
    rewrite transmitted_app. cbn. by rewrite app_nil_r.
Qed.
End TransmissionFacts.

(** X4, for a manager that had spent three attempts before the backend
    came back. *)
Lemma reopen_restarts_schedule_witness :
  let w := WS.neverReopens true 3 Scenario.connected in
  WS.reconnectAttempts (WS.this w) = 3 /\
  WS.timers (WS.turn (WS.fire_close 3) (WS.turn (WS.fire_open 3) w)) = [2000].
Proof.
  intros w. split; [reflexivity|].
  destruct (reopen_restarts_schedule w 3 3) as (_ & _ & H & _).
  - vm_compute. lia.
  - exact H.
Defined.

(* The assumption on the subscribers is needed: one that sends from
   inside its function transmits when it is called, though the users of
   the manager never call [send]. *)
Lemma subscriber_send_is_transmitted :
  let os := [Events.On "connected" Scenario.replier; Events.Connect; Events.Opened 0] in
  forallb (fun o => negb (Events.isSend o)) os = true /\
  WS.transmitted (WS.trace (Events.run os (Events.start "s1" []))) =
    [Scenario.frame "ack"].
Proof. vm_compute. by split. Qed.

(** X6, for a message sent while the transport is still connecting and
    the connection that opens afterwards. *)
Lemma only_send_transmits_witness :
  let m := Scenario.frame "start_analysis" in
  WS.transmitted
    (WS.trace (Events.run ([Events.Connect; Events.Send m]
                           ++ [Events.Opened 0; Events.Message None])
                          (Events.start "s1" tt))) = [].
Proof.
  intros m.
  rewrite (only_send_transmits "s1" tt [Events.Connect; Events.Send m]
             [Events.Opened 0; Events.Message None]).
  - reflexivity.
  - repeat constructor.
  - reflexivity.
Defined.

(** X7, for a handler subscribed to [agent_message] on a new manager. *)
Lemma subscribe_unsubscribe_round_trip_witness :
  let w := Events.start "s1" ([] : list nat) in
  WS.handlers_for "agent_message"
    (WS.turn (WS.unsubscribe "agent_message" Scenario.listener)
       (WS.turn (WS.on "agent_message" Scenario.listener) w)) = [].
Proof.
  intros w.
  destruct (subscribe_unsubscribe_round_trip "agent_message" "agent_message"
              Scenario.listener w eq_refl) as [H _].
  exact H.
Defined.

(** X8, for the handlers [thrower; listener] and a second subscription
    of [thrower]. *)
Lemma resubscribe_moves_handler_last_witness :
  WS.handlers_for "error"
    (WS.turn (WS.unsubscribe "error" Scenario.thrower)
       (WS.turn (WS.on "error" Scenario.thrower) (Scenario.subscribed "error")))
  = [Scenario.listener; Scenario.thrower].
Proof.
  exact (resubscribe_moves_handler_last "error" Scenario.thrower [] [Scenario.listener]
           (Scenario.subscribed "error") eq_refl eq_refl).
Defined.

(* ===================================================================== *)
(* Properties of the approval dialog.                                    *)
(* ===================================================================== *)

Section DecisionFacts.
Import Protocol WorkflowPanel.





(** C6: with two actions, deciding the second one first sends a frame
    at once, with a hole where the first decision belongs; the first
    decision, recorded afterwards, is never sent.  The same decisions
    taken in the order of the request are sent complete. *)
Theorem last_action_first_sends_holes :
  let actions := [Action (Some "get_documents") None; Action (Some "write_file") None] in
  let approve := Decision "approve" None in
  let reject := Decision "reject" None in
  resolve actions [(1, approve)] initial = Panel [] [[None; Some approve]] /\
  resolve actions [(1, approve); (0, reject)] initial =
    Panel [Some reject] [[None; Some approve]] /\
  resolve actions [(0, reject); (1, approve)] initial =
    Panel [] [[Some reject; Some approve]] /\
  WS.transmitted
    (WS.trace
       (WS.turn (WS.forEach (sent (resolve actions [(1, approve); (0, reject)] initial))
                            (App.sendApprovalDecisions true))
                Scenario.connected)) =
    [Payload (Some "approval_decision") None None None None
       (Some [None; Some approve])].
Proof. repeat split. Qed.
End DecisionFacts.

(* ===================================================================== *)
(* Properties of the root component.                                     *)
(* ===================================================================== *)

Section RootFacts.
Import Protocol App.

Lemma append_timeline (t : entryType) (c : option string) (s : state) :
  agentMessages (append t c s) = agentMessages s ++ [Entry t c (now s)].
Proof. reflexivity. Qed.

(* Every subscribed handler leaves the timeline as it was or appends
   exactly one entry to it. *)
Lemma subscription_appends (t : string) (f : payload -> state -> state) :
  In (t, f) subscriptions ->
  forall data s, exists new, length new <= 1 /\
    agentMessages (f data s) = agentMessages s ++ new.
Proof.
  unfold subscriptions. simpl. intros H data s.
  repeat (destruct H as [H|H]; [inversion H; subst; clear H|]); try done;
    try (eexists [_]; split; [simpl; lia | reflexivity]).
  exists []. split; [simpl; lia | by rewrite app_nil_r].
Qed.

(* A relation every subscribed handler respects holds across an event
   of the manager's own and across a dispatch. *)
Lemma notified_respects (R : state -> state -> Prop) :
  (forall s, R s s) ->
  (forall a b c, R a b -> R b c -> R a c) ->
  (forall t f d s, In (t, f) subscriptions -> R s (f d s)) ->
  forall t data s, R s (notified t data s).
Proof.
  intros Hrefl Htrans Hsub t data s. unfold notified.
  assert (G : forall subs s0,
             (forall x, In x subs -> In x subscriptions) ->
             R s0 (fold_left (fun s sub =>
                if String.eqb (fst sub) t then snd sub data s else s) subs s0)).
  { induction subs as [|[t' f] subs IH]; intros s0 Hin; [apply Hrefl|].
    cbn [fold_left fst snd].
    eapply Htrans; [|apply IH; intros x Hx; apply Hin; by right].
    destruct (String.eqb t' t); [|apply Hrefl].
    apply (Hsub t'). apply Hin. by left. }
  by apply G.
Qed.

Lemma dispatch_respects (R : state -> state -> Prop) :
  (forall s, R s s) ->
  (forall a b c, R a b -> R b c -> R a c) ->
  (forall t f d s, In (t, f) subscriptions -> R s (f d s)) ->
  forall data s, R s (dispatch data s).
Proof.
  intros Hrefl Htrans Hsub data s.
  unfold dispatch. destruct (type data) as [t|]; [|done].
  by apply (notified_respects R).
Qed.

(* Every step of the component is a tick, a selection, or runs
   subscribed handlers. *)
Lemma step_respects (R : state -> state -> Prop) :
  (forall s, R s s) ->
  (forall a b c, R a b -> R b c -> R a c) ->
  (forall t f d s, In (t, f) subscriptions -> R s (f d s)) ->
  (forall s clock, R s (step s (Tick clock))) ->
  (forall s doc, R s (handleDocumentSelect doc s)) ->
  (forall s f, R s (handleFileSelect f s)) ->
  forall s e, R s (step s e).
Proof.
  intros Hrefl Htrans Hsub Htick Hdoc Hfile s e.
  destruct e as [c|data|sid| | |doc|f]; cbn [step].
  - apply Htick.
  - by apply dispatch_respects.
  - by apply (notified_respects R).
  - by apply (notified_respects R).
  - by apply (notified_respects R).
  - apply Hdoc.
  - apply Hfile.
Qed.

Lemma connect_keeps_handlers {W} (t : string) (w : WS.world W) :
  WS.handlers_for t (WS.turn WS.connect w) = WS.handlers_for t w.
Proof.
  unfold WS.turn, WS.connect, WS.bind, WS.gets. cbn [fst snd].
  by destruct (WS.isConnecting (WS.this w) || WS.ws_is_open w).
Qed.

Lemma handleMessage_no_handlers {W} (data : payload) (t : string) (w : WS.world W) :
  type data = Some t ->
  WS.handlers_for t w = [] ->
  WS.app (WS.turn (WS.handleMessage data) w) = WS.app w.
Proof.
  intros Ht Hnone. unfold WS.turn.
  rewrite (handleMessage_unfold data t) by done. by rewrite Hnone.
Qed.

(** X10: once initializeSession has subscribed its seven handlers, what a
    frame handed to handleMessage does to the root component is what
    [dispatch] does: the one handler of the frame's type runs, and a
    frame of any other type, or without type, changes nothing. *)
Lemma handleMessage_dispatch (sid : string) (data : payload) (s : state) :
  WS.app (WS.turn (WS.handleMessage data) (initializeSession sid s)) = dispatch data s.
Proof.
  destruct data as [ty i m c a d]. destruct ty as [t|]; [|reflexivity].
  destruct (String.eqb_spec "connected" t) as [<-|N1]; [vm_compute; reflexivity|].
  destruct (String.eqb_spec "analysis_started" t) as [<-|N2]; [vm_compute; reflexivity|].
  destruct (String.eqb_spec "agent_message" t) as [<-|N3]; [vm_compute; reflexivity|].
  destruct (String.eqb_spec "approval_required" t) as [<-|N4]; [vm_compute; reflexivity|].
  destruct (String.eqb_spec "approval_processed" t) as [<-|N5]; [vm_compute; reflexivity|].
  destruct (String.eqb_spec "analysis_complete" t) as [<-|N6]; [vm_compute; reflexivity|].
  destruct (String.eqb_spec "error" t) as [<-|N7]; [vm_compute; reflexivity|].
  assert (Hnone : WS.handlers_for t (initializeSession sid s) = []).
  { unfold initializeSession. rewrite connect_keeps_handlers.
    cbn [subscriptions length seq zip_with fold_left fst snd].
    by rewrite !on_other_type by done. }
  rewrite (handleMessage_no_handlers _ t) by done.
  assert (WS.app (initializeSession sid s) = s) as -> by (vm_compute; reflexivity).
  unfold dispatch. cbn [type subscriptions fold_left fst snd].
  apply String.eqb_neq in N1. apply String.eqb_neq in N2.
  apply String.eqb_neq in N3. apply String.eqb_neq in N4.
  apply String.eqb_neq in N5. apply String.eqb_neq in N6.
  apply String.eqb_neq in N7.
  by rewrite N1, N2, N3, N4, N5, N6, N7.
Qed.

(** X28: the manager's own events reach the root component as [step]
    says: with the seven handlers of initializeSession subscribed, the
    open event of the transport runs handleConnected with the session
    id, an error of the transport runs handleError with a payload that
    has no message, and the [connection_failed] notification runs
    nothing. *)
Theorem connection_events_reach_component (sid : string) (s : state) :
  let w := initializeSession sid s in
  WS.app (WS.turn (WS.fire_open 0) w) = step s (Opened sid) /\
  WS.app (WS.turn WS.onerror w) = step s Errored /\
  WS.app (WS.turn (WS.notifyHandlers "connection_failed" WS.connectionFailed) w) =
    step s Failed.
Proof. intros w. subst w. repeat split; vm_compute; reflexivity. Qed.

Lemma step_appends (s : state) (e : event) :
  agentMessages s `prefix_of` agentMessages (step s e).
Proof.
  apply (step_respects (fun a b => agentMessages a `prefix_of` agentMessages b));
    try done.
  - intros a b c Hab Hbc. by etrans.
  - intros t f d s0 Hin.
    destruct (subscription_appends t f Hin d s0) as (new & _ & ->).
    by apply prefix_app_r.
Qed.

Lemma run_appends (es : list event) : forall s,
  agentMessages s `prefix_of` agentMessages (fold_left step es s).
Proof.
  induction es as [|e es IH]; intros s; simpl; [done|].
  etrans; [apply step_appends | apply IH].
Qed.

(** C7: the handler of [approval_processed] sets the pending request
    to none and appends one [system] entry carrying the frame's
    [message]; the frame reaches that handler and no other; and every
    inbound-message handler, and every step of the component, keeps
    the entries already in the timeline, in place and unchanged. *)
Theorem approval_processed_effect (data : payload) (s : state) :
  approvalRequest (handleApprovalProcessed data s) = None /\
  agentMessages (handleApprovalProcessed data s) =
    agentMessages s ++ [Entry system (message data) (now s)] /\
  (type data = Some "approval_processed" ->
   dispatch data s = handleApprovalProcessed data s) /\
  (forall t f d s0, In (t, f) subscriptions ->
     agentMessages s0 `prefix_of` agentMessages (f d s0)) /\
  (forall clock es es',
     agentMessages (run clock es) `prefix_of` agentMessages (run clock (es ++ es'))) /\
  (type data = Some "approval_processed" ->
   let w := WS.turn (WS.fire_open 0) (initializeSession "s1" s) in
   WS.app (WS.turn (WS.onmessage (Some data)) w) =
     handleApprovalProcessed data (WS.app w)).
Proof.
  split; [reflexivity|]. split; [reflexivity|]. split; [|split; [|split]].
  - intros Ht. unfold dispatch. by rewrite Ht.
  - intros t f d s0 Hin.
    destruct (subscription_appends t f Hin d s0) as (new & _ & ->).
    by apply prefix_app_r.
  - intros clock es es'. unfold run. rewrite fold_left_app. apply run_appends.
  - destruct data as [ty sid msg cont acts decs]. cbn [type]. intros ->.
    vm_compute. reflexivity.
Qed.

(** C4 as stated fails: selecting a document and then a file keeps the
    document selected while the widths are those of the file view. *)
Lemma layout_not_function_of_selection :
  ~ (forall clock es, layoutFollowsSelection (run clock es)).
Proof.
  intros H.
  destruct (H 0 [SelectDocument (Some (Document 1 "contract.pdf"));
                 SelectFile (Some (File "/report/r.md" None None None))])
    as ((_ & Hdoc) & _).
  discriminate Hdoc. discriminate.
Qed.

Lemma dispatch_layout (data : payload) (s : state) :
  layoutMode (dispatch data s) = layoutMode s.
Proof.
  symmetry.
  apply (dispatch_respects (fun a b => layoutMode a = layoutMode b));
    [done | congruence |].
  unfold subscriptions. simpl. intros t f d s0 H.
  repeat (destruct H as [H|H]; [by inversion H|]). done.
Qed.

Lemma notified_layout (t : string) (data : payload) (s : state) :
  layoutMode (notified t data s) = layoutMode s.
Proof.
  symmetry.
  apply (notified_respects (fun a b => layoutMode a = layoutMode b));
    [done | congruence |].
  unfold subscriptions. simpl. intros t0 f d s0 H.
  repeat (destruct H as [H|H]; [by inversion H|]). done.
Qed.

Lemma run_layout (es : list event) : forall s,
  layoutMode (fold_left step es s) = lastSelection es (layoutMode s).
Proof.
  induction es as [|e es IH]; intros s; cbn [fold_left lastSelection]; [done|].
  destruct e; rewrite IH; cbn [step]; trivial;
    by rewrite ?dispatch_layout, ?notified_layout.
Qed.

Lemma notified_selection (t : string) (data : payload) (s : state) :
  selectedDocument (notified t data s) = selectedDocument s /\
  selectedFile (notified t data s) = selectedFile s.
Proof.
  apply (notified_respects (fun a b =>
           selectedDocument b = selectedDocument a /\
           selectedFile b = selectedFile a)); [done | |].
  - intros a b c [-> ->] [-> ->]. done.
  - unfold subscriptions. simpl. intros t0 f d s0 H.
    repeat (destruct H as [H|H]; [by inversion H|]). done.
Qed.

Lemma dispatch_selection (data : payload) (s : state) :
  selectedDocument (dispatch data s) = selectedDocument s /\
  selectedFile (dispatch data s) = selectedFile s.
Proof.
  unfold dispatch. destruct (type data) as [t|]; [|done]. apply notified_selection.
Qed.

Lemma run_mode (clock : nat) (es : list event) :
  forallb selects es = true -> modeMatchesSelection (run clock es).
Proof.
  unfold run. induction es as [|e es IH] using rev_ind; intros Hsel.
  - left. done.
  - rewrite forallb_app in Hsel. apply andb_prop in Hsel as [Hes He].
    simpl in He. rewrite andb_true_r in He.
    rewrite fold_left_app. simpl.
    specialize (IH Hes). set (s := fold_left step es (initial clock)) in *.
    destruct e as [c|data|sid| | |[d|]|[f|]]; cbn [step]; try discriminate He.
    + exact IH.
    + unfold modeMatchesSelection.
      destruct (dispatch_selection data s) as [-> ->].
      by rewrite dispatch_layout.
    + unfold modeMatchesSelection.
      match goal with |- context [notified ?t ?d s] =>
        destruct (notified_selection t d s) as [-> ->]; by rewrite notified_layout end.
    + unfold modeMatchesSelection.
      match goal with |- context [notified ?t ?d s] =>
        destruct (notified_selection t d s) as [-> ->]; by rewrite notified_layout end.
    + unfold modeMatchesSelection.
      match goal with |- context [notified ?t ?d s] =>
        destruct (notified_selection t d s) as [-> ->]; by rewrite notified_layout end.
    + right. left. done.
    + right. right. done.
Qed.

(** C4 (amended): as long as entities are selected and none is
    deselected, the widths are those of the panel in which the most
    recent selection was made: 40/40/20 after a document (one is then
    selected), 20/40/40 after a file (one is then selected), and
    20/60/20 exactly when nothing has been selected. *)
Theorem layout_follows_last_selection (clock : nat) (es : list event) :
  forallb selects es = true ->
  let s := run clock es in
  (getPanelSizes s = Sizes 40 40 20 <-> lastSelection es "default" = "document-view") /\
  (getPanelSizes s = Sizes 20 40 40 <-> lastSelection es "default" = "file-edit") /\
  (getPanelSizes s = Sizes 20 60 20 <-> lastSelection es "default" = "default") /\
  (getPanelSizes s = Sizes 40 40 20 -> selectedDocument s <> None) /\
  (getPanelSizes s = Sizes 20 40 40 -> selectedFile s <> None) /\
  (selectedDocument s = None -> selectedFile s = None ->
   getPanelSizes s = Sizes 20 60 20).
Proof.
  intros Hsel s.
  pose proof (run_mode clock es Hsel) as Hm. fold s in Hm.
  assert (Hl : layoutMode s = lastSelection es "default")
    by apply (run_layout es (initial clock)).
  rewrite <- Hl. unfold getPanelSizes.
  destruct Hm as [(-> & Hd & Hf) | [(-> & Hd) | (-> & Hf)]]; simpl;
    repeat split; intros; try done.
Qed.
End RootFacts.

(** C7, for the frame [{type: approval_processed, message: done}]. *)
Lemma approval_processed_effect_witness :
  let data := Protocol.Payload (Some "approval_processed") None (Some "done") None None None in
  let s := App.handleApprovalRequired
             (Protocol.Payload (Some "approval_required") None None None (Some []) None)
             (App.initial 7) in
  App.approvalRequest s <> None /\
  App.dispatch data s = App.handleApprovalProcessed data s /\
  App.approvalRequest (App.dispatch data s) = None /\
  App.agentMessages (App.dispatch data s) =
    App.agentMessages s ++ [App.Entry App.system (Some "done") 7].
Proof.
  intros data s.
  destruct (approval_processed_effect data s) as (H1 & H2 & H3 & _).
  rewrite (H3 eq_refl). split; [discriminate|]. split; [reflexivity|].
  split; [exact H1 | exact H2].
Defined.

(** C4 (amended), after selecting a document and then a file. *)
Lemma layout_follows_last_selection_witness :
  App.getPanelSizes
    (App.run 0 [App.SelectDocument (Some (App.Document 1 "contract.pdf"));
                App.SelectFile (Some (App.File "/report/r.md" None None None))])
  = App.Sizes 20 40 40.
Proof.
  apply (layout_follows_last_selection 0
           [App.SelectDocument (Some (App.Document 1 "contract.pdf"));
            App.SelectFile (Some (App.File "/report/r.md" None None None))]
           eq_refl).
  reflexivity.
Defined.

(* ===================================================================== *)
(* Properties of the highlighting.                                       *)
(* ===================================================================== *)

Section HighlightFacts.
Import Protocol.

(* get_documents: the significant pages of the first listed document,
   whatever was highlighted before. *)
Lemma highlight_get_documents (a : action) (c : actionContext)
    (d : documentInfo) (rest : list documentInfo)
    (detail : option DocumentPanel.documentDetail) (prev : list nat) :
  context a = Some c ->
  tool c = Some "get_documents" ->
  documents c = Some (d :: rest) ->
  DocumentPanel.highlightEffect (Some a) detail prev = default [] (significant_pages d).
Proof.
  intros Hc Ht Hd. unfold DocumentPanel.highlightEffect. simpl.
  by rewrite Hc, Ht, Hd.
Qed.

(* get_page_text: the page numbers named in the context. *)
Lemma highlight_get_page_text (a : action) (c : actionContext)
    (ps : list pageInfo)
    (detail : option DocumentPanel.documentDetail) (prev : list nat) :
  context a = Some c ->
  tool c = Some "get_page_text" ->
  pages c = Some ps ->
  DocumentPanel.highlightEffect (Some a) detail prev = map page_num ps.
Proof.
  intros Hc Ht Hp. unfold DocumentPanel.highlightEffect. simpl.
  rewrite Hc, Ht, Hp. by destruct (documents c).
Qed.

(* Nothing pending: the loaded document's significant pages. *)
Lemma highlight_fallback (d : DocumentPanel.documentDetail) (prev : list nat) :
  DocumentPanel.highlightEffect None (Some d) prev =
    default [] (DocumentPanel.detail_significant_pages d).
Proof. reflexivity. Qed.

(* write_file / edit_file: the predicate holds for the path named in
   the context and for no other. *)
Lemma isFileHighlighted_iff (a : action) (c : actionContext) (p q : string) :
  tool_name a = Some "write_file" \/ tool_name a = Some "edit_file" ->
  context a = Some c ->
  file_path c = Some p ->
  p <> "" ->
  FilePanel.isFileHighlighted (Some a) q = true <-> q = p.
Proof.
  intros Ht Hc Hp Hne. unfold FilePanel.isFileHighlighted.
  rewrite Hc, Hp.
  assert (truthy (Some p) = true) as -> by (by destruct p).
  destruct Ht as [-> | ->]; simpl; rewrite String.eqb_eq; split; congruence.
Qed.
End HighlightFacts.


(* ===================================================================== *)
(* Further properties of the root component.                             *)
(* ===================================================================== *)

Section HistoryFacts.
Import Protocol App History.

(* The handler a frame is dispatched to, by its type. *)
Lemma dispatch_by_type (data : payload) (s : state) :
  dispatch data s =
    if hasType "connected" data then handleConnected data s
    else if hasType "analysis_started" data then handleAnalysisStarted data s
    else if hasType "agent_message" data then handleAgentMessage data s
    else if hasType "approval_required" data then handleApprovalRequired data s
    else if hasType "approval_processed" data then handleApprovalProcessed data s
    else if hasType "analysis_complete" data then handleAnalysisComplete data s
    else if hasType "error" data then handleError data s
    else s.
Proof.
  unfold dispatch, hasType. destruct (type data) as [t|]; [|reflexivity].
  cbn [subscriptions fold_left fst snd]. rewrite !(String.eqb_sym t).
  destruct (String.eqb_spec "connected" t) as [<-|N1]; [reflexivity|].
  destruct (String.eqb_spec "analysis_started" t) as [<-|N2]; [reflexivity|].
  destruct (String.eqb_spec "agent_message" t) as [<-|N3]; [reflexivity|].
  destruct (String.eqb_spec "approval_required" t) as [<-|N4]; [reflexivity|].
  destruct (String.eqb_spec "approval_processed" t) as [<-|N5]; [reflexivity|].
  destruct (String.eqb_spec "analysis_complete" t) as [<-|N6]; [reflexivity|].
  destruct (String.eqb_spec "error" t) as [<-|N7]; reflexivity.
Qed.

Lemma hasType_exclusive (a b : string) (data : payload) :
  hasType a data = true -> a <> b -> hasType b data = false.
Proof.
  unfold hasType. destruct (type data) as [t|]; [|done].
  intros Ha%String.eqb_eq Hne. apply String.eqb_neq. congruence.
Qed.

(* Case analysis on the type of a frame: one case per subscribed type,
   and one for every other frame. *)
Ltac settle_types data :=
  repeat match goal with
  | H : hasType ?a data = true |- context [hasType ?b data] =>
      first [ rewrite H | rewrite (hasType_exclusive a b data H) by discriminate ]
  | H : hasType ?a data = false |- context [hasType ?a data] => rewrite H
  end.
Ltac frame_cases data :=
  destruct (hasType "connected" data) eqn:?; settle_types data;
  [| destruct (hasType "analysis_started" data) eqn:?; settle_types data;
  [| destruct (hasType "agent_message" data) eqn:?; settle_types data;
  [| destruct (hasType "approval_required" data) eqn:?; settle_types data;
  [| destruct (hasType "approval_processed" data) eqn:?; settle_types data;
  [| destruct (hasType "analysis_complete" data) eqn:?; settle_types data;
  [| destruct (hasType "error" data) eqn:?; settle_types data ]]]]]].

Lemma dispatch_timeline (data : payload) (s : state) :
  length (agentMessages (dispatch data s)) =
    length (agentMessages s) + (if logged data then 1 else 0).
Proof.
  rewrite dispatch_by_type. unfold logged. cbn [existsb].
  frame_cases data; cbn; rewrite ?length_app; cbn; lia.
Qed.

Lemma dispatch_status (data : payload) (s : state) :
  connectionStatus (dispatch data s) =
    if hasType "connected" data then "connected" else connectionStatus s.
Proof. rewrite dispatch_by_type. frame_cases data; reflexivity. Qed.

Lemma dispatch_pending (data : payload) (s : state) :
  approvalRequest (dispatch data s) =
    if hasType "approval_required" data then Some data
    else if hasType "approval_processed" data then None
    else approvalRequest s.
Proof. rewrite dispatch_by_type. frame_cases data; reflexivity. Qed.

(* The manager's own events run the handler subscribed to them: the
   open event [handleConnected], an error of the transport
   [handleError] with a payload that has no message, and nothing on
   [connection_failed]. *)
Lemma step_opened (s : state) (sid : string) :
  step s (Opened sid) =
    handleConnected (Payload None (Some sid) None None None None) s.
Proof. reflexivity. Qed.

Lemma step_errored (s : state) : step s Errored = handleError emptyPayload s.
Proof. reflexivity. Qed.

Lemma step_failed (s : state) : step s Failed = s.
Proof. reflexivity. Qed.

(** X11: the timeline holds one entry for every frame received so far
    whose type is analysis_started, agent_message, approval_required,
    approval_processed, analysis_complete or error, one for every error
    the transport reported, and nothing else: [connected] frames, frames
    of any other type or without type, the open event, the
    [connection_failed] event and selections in the panels add no
    entry. *)
Theorem timeline_counts_frames (clock : nat) (es : list event) :
  length (agentMessages (run clock es)) = length (List.filter loggedEvent es).
Proof.
  unfold run.
  assert (G : forall s, length (agentMessages (fold_left step es s)) =
                        length (agentMessages s) + length (List.filter loggedEvent es)).
  { induction es as [|e es IH]; intros s; cbn [fold_left List.filter]; [cbn; lia|].
    rewrite IH. destruct e as [c|data|sid| | |d|f]; cbn [loggedEvent];
      rewrite ?step_opened, ?step_errored, ?step_failed;
      try (cbn; rewrite ?length_app; cbn; lia).
    cbn [step]. rewrite dispatch_timeline. destruct (logged data); cbn; lia. }
  by rewrite G.
Qed.

(** X12: the pending approval request is always the frame of the last
    [approval_required] received, unless an [approval_processed] came
    after it: a second [approval_required] silently replaces a request
    that is still pending, and nothing else sets or clears the request
    (no other frame, no event of the connection, no selection). *)
Theorem pending_request_is_last_required (clock : nat) (es : list event) :
  approvalRequest (run clock es) = pendingAfter es None.
Proof.
  unfold run.
  assert (G : forall s, approvalRequest (fold_left step es s) =
                        pendingAfter es (approvalRequest s)).
  { induction es as [|e es IH]; intros s; [done|].
    cbn [fold_left pendingAfter]. rewrite IH.
    destruct e as [c|data|sid| | |d|f];
      rewrite ?step_opened, ?step_errored, ?step_failed; try reflexivity.
    cbn [step]. by rewrite dispatch_pending. }
  apply G.
Qed.

(** X13: the connection status shown by the root component is
    [connected] from the first open event of the transport, or the first
    [connected] frame, on and [disconnected] before it: nothing ever
    sets it back, neither a later frame or selection nor an error of
    the transport or the [connection_failed] event. *)
Theorem connection_status_never_reverts (clock : nat) (es : list event) :
  connectionStatus (run clock es) =
    if existsb connectedEvent es then "connected" else "disconnected".
Proof.
  unfold run.
  assert (G : forall s, connectionStatus (fold_left step es s) =
                        if existsb connectedEvent es then "connected"
                        else connectionStatus s).
  { induction es as [|e es IH]; intros s; cbn [fold_left existsb]; [done|].
    rewrite IH. destruct e as [c|data|sid| | |d|f]; cbn [connectedEvent orb];
      rewrite ?step_opened, ?step_errored, ?step_failed; try reflexivity.
    - cbn [step]. rewrite dispatch_status.
      by destruct (hasType "connected" data), (existsb _ es).
    - by destruct (existsb _ es). }
  by rewrite G.
Qed.

Lemma lastSelection_default (es : list event) (acc : string) :
  lastSelection es acc =
    if existsb selectionEvent es then lastSelection es "default" else acc.
Proof.
  revert acc. induction es as [|e es IH]; intros acc; [done|].
  destruct e as [c|data|sid| | |d|f]; cbn [lastSelection existsb selectionEvent orb];
    try apply IH.
  - rewrite (IH "document-view"). by destruct (existsb _ es).
  - rewrite (IH "file-edit"). by destruct (existsb _ es).
Qed.

Lemma lastSelection_mode (es : list event) :
  existsb selectionEvent es = true ->
  lastSelection es "default" = "document-view" \/
  lastSelection es "default" = "file-edit".
Proof.
  induction es as [|e es IH]; [done|].
  destruct e as [c|data|sid| | |d|f]; cbn [lastSelection existsb selectionEvent orb]; auto.
  - intros _. rewrite lastSelection_default.
    destruct (existsb selectionEvent es) eqn:E; auto.
  - intros _. rewrite lastSelection_default.
    destruct (existsb selectionEvent es) eqn:E; auto.
Qed.

(** X14: the widths are 20/60/20 exactly as long as no selection has
    been made in either panel: after the first selection they are
    40/40/20 or 20/40/40 for good, also when the selection is cleared
    again (back to the list of documents or of files). *)
Theorem default_layout_only_before_selection (clock : nat) (es : list event) :
  getPanelSizes (run clock es) = Sizes 20 60 20 <->
  existsb selectionEvent es = false.
Proof.
  unfold getPanelSizes, run. rewrite (run_layout es (initial clock)).
  cbn [initial layoutMode].
  destruct (existsb selectionEvent es) eqn:E.
  - destruct (lastSelection_mode es E) as [-> | ->]; by cbn.
  - rewrite lastSelection_default, E. by cbn.
Qed.
End HistoryFacts.

Section SurfaceFacts.
Import Protocol WS History.

Lemma unaware_fails (errors : bool) (sid : nat) (w : world App.state) :
  unaware w -> unaware (fails errors sid w).
Proof.
  intros (He & Hf & Hc). unfold fails.
  assert (Hq : Forall quiet (handlers_for "error" w) /\
               Forall returns (handlers_for "error" w)).
  { rewrite He. split; repeat constructor. }
  destruct Hq as [Hq Hr].
  assert (H0 : unaware (if errors then turn onerror w else w)).
  { destruct (settle errors w (fun _ => Hq)) as (F1 & _ & _ & _ & F5).
    specialize (F5 (fun _ => Hr)). cbv zeta in F1, F5.
    unfold unaware. rewrite (same_handlers "error" w), (same_handlers "connection_failed" w)
      by by rewrite F1.
    split; [done|]. split; [done|]. rewrite F5, He.
    destruct errors; [|done]. by cbn. }
  destruct H0 as (He0 & Hf0 & Hc0).
  set (w0 := if errors then turn onerror w else w) in *.
  destruct (Nat.ltb_spec (reconnectAttempts (this w0)) (maxReconnectAttempts (this w0)))
    as [Hlt|Hge].
  - rewrite fire_close_retry by done. done.
  - assert (Hq0 : Forall quiet (handlers_for "connection_failed" w0))
      by (rewrite Hf0; constructor).
    assert (Hr0 : Forall returns (handlers_for "connection_failed" w0))
      by (rewrite Hf0; constructor).
    destruct (fire_close_exhausted w0 sid Hge Hq0) as (F1 & _ & _ & F4).
    destruct (F4 Hr0) as (F5 & _). cbv zeta in F1, F5.
    unfold unaware. rewrite (same_handlers "error" w0), (same_handlers "connection_failed" w0)
      by by rewrite F1.
    split; [done|]. split; [done|]. rewrite F5, Hf0. by cbn.
Qed.

Lemma unaware_timer (w : world App.state) : unaware w -> unaware (turn fire_timer w).
Proof.
  intros (He & Hf & Hc).
  unfold turn, fire_timer, bind, gets. cbn [fst snd].
  destruct (timers w) as [|d rest]; cbn [fst snd]; [done|].
  unfold set_timers, connect, bind, gets, set_this, effect_, set_sockets. cbn [fst snd].
  match goal with |- context [if ?b then _ else _] => destruct b end; done.
Qed.

(** X15: the root component subscribes to [error] but not to
    [connection_failed]: while the connection is down and every
    reconnect attempt fails, up to and beyond the last one, the
    [connection_failed] event has no handler to reach and the
    connection status the component shows stays [connected]. *)
Theorem failure_is_not_surfaced (errors : bool) (rounds : nat)
    (sid : string) (s : App.state) :
  let w := turn (fire_open 0) (App.initializeSession sid s) in
  handlers_for "connection_failed" w = [] /\
  App.connectionStatus (app (neverReopens errors rounds w)) = "connected".
Proof.
  intros w.
  assert (H0 : unaware w).
  { subst w. repeat split; vm_compute; reflexivity. }
  split; [apply H0|].
  assert (G : forall n w, unaware w -> unaware (neverReopens errors n w)).
  { induction n as [|n IH]; intros w1 Hw; [done|]. cbn [neverReopens].
    destruct (ws (this w1)) as [sid1|]; [|done].
    pose proof (unaware_fails errors sid1 w1 Hw) as Hf.
    destruct (timers (fails errors sid1 w1)); [done|].
    by apply IH, unaware_timer. }
  by destruct (G rounds w H0) as (_ & _ & ?).
Qed.
End SurfaceFacts.

(* ===================================================================== *)
(* Further properties of the approval dialog.                            *)
(* ===================================================================== *)

Section DialogFacts.
Import Protocol WorkflowPanel Dialog.

Lemma array_set_length {A} (a : array A) (i : nat) (x : A) :
  length (array_set a i x) = max (length a) (S i).
Proof.
  unfold array_set, array in *. destruct (Nat.ltb_spec i (length a)) as [Hlt|Hge].
  - rewrite length_insert. lia.
  - rewrite !length_app, length_replicate. cbn. lia.
Qed.

(** X16: writing slot [i] of the decisions array, as JavaScript does:
    the slot then holds the decision, the array is as long as before or
    reaches just past [i], the slots it already had are unchanged, and
    the slots between its old end and [i] are holes. *)
Theorem array_write {A} (a : array A) (i : nat) (x : A) :
  length (array_set a i x) = max (length a) (S i) /\
  array_set a i x !! i = Some (Some x) /\
  (forall j, j <> i -> j < length a -> array_set a i x !! j = a !! j) /\
  (forall j, length a <= j < i -> array_set a i x !! j = Some None).
Proof.
  split; [apply array_set_length|].
  unfold array_set, array in *. destruct (Nat.ltb_spec i (length a)) as [Hlt|Hge].
  - split; [by apply list_lookup_insert_eq|]. split.
    + intros j Hne _. by apply list_lookup_insert_ne.
    + intros j Hj. lia.
  - split; [|split].
    + rewrite lookup_app_r by lia. rewrite lookup_app_r; rewrite length_replicate; [|lia].
      by replace (i - length a - (i - length a)) with 0 by lia.
    + intros j Hne Hj. by rewrite lookup_app_l.
    + intros j Hj. rewrite lookup_app_r by lia. rewrite lookup_app_l.
      * apply lookup_replicate_2. lia.
      * rewrite length_replicate. lia.
Qed.



(** X18: "Approve All" and "Reject All" each send at once one frame with
    one decision per action, all [approve] or all [reject], without
    holes and without edited arguments, and discard whatever had been
    decided for single actions before. *)
Theorem batch_decisions_are_uniform (actions : list action) (p : panel) :
  handleApproveAll actions p =
    Panel [] (sent p ++ [replicate (length actions) (Some (Decision "approve" None))]) /\
  handleRejectAll actions p =
    Panel [] (sent p ++ [replicate (length actions) (Some (Decision "reject" None))]).
Proof.
  unfold handleApproveAll, handleRejectAll.
  assert (G : forall x : option decision,
            map (fun _ : action => x) actions = replicate (length actions) x).
  { intros x. induction actions as [|a l IH]; [done|]. cbn. by rewrite IH. }
  by rewrite !G.
Qed.
End DialogFacts.



(* ===================================================================== *)
(* Further properties of the document and file panels.                   *)
(* ===================================================================== *)

Section PageFacts.
Import Protocol DocumentPanel.

(* The effect either keeps the highlighting or replaces it by pages that
   do not depend on it. *)
Lemma highlightEffect_shape (a : option action) (d : option documentDetail) :
  (forall p, highlightEffect a d p = p) \/
  (exists pages, forall p, highlightEffect a d p = pages).
Proof.
  unfold highlightEffect.
  destruct (a ≫= context) as [c|]; [|destruct d; eauto].
  destruct (tool c) as [t|]; [|by left].
  destruct (documents c) as [[|d0 docs]|], (pages c) as [ps|];
    repeat case_match; eauto.
Qed.

(** X20: the highlighting effect settles at once: running it again with
    the same pending action and document detail changes nothing, and
    its result is either the highlighting that was there, untouched, or
    a list of pages that does not depend on what was highlighted
    before. *)
Theorem highlight_effect_settles (a : option action) (d : option documentDetail)
    (p : list nat) :
  highlightEffect a d (highlightEffect a d p) = highlightEffect a d p /\
  (highlightEffect a d p = p \/ forall q, highlightEffect a d q = highlightEffect a d p).
Proof.
  destruct (highlightEffect_shape a d) as [Hkeep | [pages Hset]].
  - rewrite !Hkeep. by split; [|left].
  - split; [by rewrite !Hset|]. right. intros q. by rewrite !Hset.
Qed.
End PageFacts.

Section RenderFacts.
Import Protocol FilePanel.
Variables localeLe codeUnitLe : string -> string -> bool.

Lemma existsb_insert {A} (f : A -> bool) (le : A -> A -> bool) (x : A) (l : list A) :
  existsb f (insert le x l) = f x || existsb f l.
Proof.
  induction l as [|y l IH]; simpl; [done|].
  destruct (le y x); simpl; [|done].
  rewrite IH. by destruct (f x), (f y).
Qed.

Lemma existsb_sort {A} (f : A -> bool) (le : A -> A -> bool) (l : list A) :
  existsb f (sort le l) = existsb f l.
Proof.
  unfold sort.
  assert (G : forall acc, existsb f (fold_left (fun acc x => insert le x acc) l acc)
                          = existsb f acc || existsb f l).
  { induction l as [|x l IH]; intros acc; simpl; [by rewrite orb_false_r|].
    rewrite IH, existsb_insert. by destruct (f x), (existsb f acc). }
  by rewrite G.
Qed.

Lemma existsb_map {A B} (f : B -> bool) (g : A -> B) (l : list A) :
  existsb f (map g l) = existsb (fun x => f (g x)) l.
Proof. induction l as [|x l IH]; simpl; [done|]. by rewrite IH. Qed.

(* Induction on trees, through the directory maps. *)
Lemma tree_induction (P : tree -> Prop) :
  (forall fs ds, Forall (fun kv => P (snd kv)) (default [] ds) -> P (Tree fs ds)) ->
  forall t, P t.
Proof.
  intros H. fix IH 1. intros [fs ds]. apply H.
  destruct ds as [l|]; [|constructor]. simpl.
  induction l as [|[k sub] l IHl]; constructor; [apply IH | apply IHl].
Qed.

(* No file rendered inside a directory is shown highlighted. *)
Lemma directory_children_not_highlighted (p : string) (t : tree) :
  forall depth,
    existsb (showsHighlighted p) (renderDirectoryChildren localeLe codeUnitLe t depth) = false.
Proof.
  induction t as [fs ds IH] using tree_induction. intros depth.
  cbn [renderDirectoryChildren]. rewrite existsb_app, !existsb_map.
  apply orb_false_intro.
  - cbn [showsHighlighted]. rewrite existsb_sort.
    destruct ds as [l|]; [|done]. rewrite existsb_map. simpl in IH.
    induction l as [|[k sub] l IHl]; [done|]. simpl.
    inversion IH as [|? ? Hsub Hl]; subst. simpl in Hsub.
    by rewrite Hsub, IHl.
  - cbn [showsHighlighted]. rewrite existsb_sort.
    induction (default [] fs) as [|f l IHl]; [done|]. simpl.
    by rewrite andb_false_r.
Qed.

(** C5: when a [write_file] action naming [/report/r.md] is pending,
    the highlight predicate holds for that path, yet the rendered tree
    shows the file, which lies in a directory, without highlight; the
    same action on a file at the root is shown highlighted. *)
Theorem nested_file_not_highlighted :
  let pending p :=
    Some (Action (Some "write_file") (Some (ActionContext None None None (Some p)))) in
  isFileHighlighted (pending "/report/r.md") "/report/r.md" = true /\
  renderFileTree localeLe codeUnitLe None (pending "/report/r.md")
      <$> buildFileTree [App.File "/report/r.md" None None None] =
    Some [DirectoryItem "report" 0
            [FileItem (Entry "r.md" "/report/r.md" None None) 1 false false]] /\
  existsb (showsHighlighted "/report/r.md")
      <$> (renderFileTree localeLe codeUnitLe None (pending "/report/r.md")
             <$> buildFileTree [App.File "/report/r.md" None None None]) =
    Some false /\
  renderFileTree localeLe codeUnitLe None (pending "/r.md")
      <$> buildFileTree [App.File "/r.md" None None None] =
    Some [FileItem (Entry "r.md" "/r.md" None None) 0 false true].
Proof. repeat split. Qed.
End RenderFacts.

(* ===================================================================== *)
(* Properties of the workspace tree.                                     *)
(* ===================================================================== *)

Section TreeFacts.
Import Protocol FilePanel Browser.
Implicit Types (t : tree) (ds ps : list string) (file : App.file).

(* The outer [files.forEach] of buildFileTree, started from any tree. *)
Local Abbreviation building fs built :=
  (fold_left (fun acc file =>
                match acc with
                | Some t => place (parts (App.path file)) file t
                | None => None
                end) fs built).

Lemma get_set_eq {A} (k : string) (v : A) (obj : list (string * A)) :
  get k (set k v obj) = Some v.
Proof.
  induction obj as [|[k' x] obj IH]; simpl.
  - by rewrite String.eqb_refl.
  - destruct (String.eqb k' k) eqn:E; simpl; rewrite E; [done | apply IH].
Qed.

Lemma get_set_ne {A} (k k' : string) (v : A) (obj : list (string * A)) :
  k <> k' -> get k' (set k v obj) = get k' obj.
Proof.
  intros Hne. induction obj as [|[k0 x] obj IH]; simpl.
  - destruct (String.eqb_spec k k'); [done | reflexivity].
  - destruct (String.eqb_spec k0 k) as [->|N]; simpl.
    + destruct (String.eqb_spec k k'); [done | reflexivity].
    + destruct (String.eqb k0 k'); [reflexivity | apply IH].
Qed.

Lemma unfold_default_Some {A} (d x : A) : default d (Some x) = x.
Proof. reflexivity. Qed.

Lemma subtree_empty ds : is_Some (subtree emptyTree ds) -> ds = [].
Proof. destruct ds; [done|]. simpl. by intros [? ?]. Qed.

Lemma filesAt_empty ds : filesAt emptyTree ds = [].
Proof. by destruct ds. Qed.

Lemma subtree_cons t (d : string) ds :
  subtree t (d :: ds) =
    match get d (default [] (dirs t)) with
    | Some sub => subtree sub ds
    | None => None
    end.
Proof. reflexivity. Qed.

Lemma plain_cons (part r : string) (rest : list string) :
  plain (part :: r :: rest) <-> inherited part = false /\ plain (r :: rest).
Proof.
  unfold plain.
  change (dirname (part :: r :: rest)) with (part :: dirname (r :: rest)).
  split; [apply (Forall_cons_1 (fun d => inherited d = false))
         | intros [? ?]; by constructor].
Qed.

(* Through a directory with a plain name, the walk goes down into the
   node of that name, created when the tree has none. *)
Lemma place_step (part r : string) (rest : list string) file t :
  inherited part = false ->
  place (part :: r :: rest) file t =
    match place (r :: rest) file
            (default emptyTree (get part (default [] (dirs t)))) with
    | Some sub => Some (Tree (files t) (Some (set part sub (default [] (dirs t)))))
    | None => None
    end.
Proof.
  intros H. cbn [place]. rewrite H.
  destruct (String.eqb_spec part "__proto__") as [->|_]; [discriminate H|].
  reflexivity.
Qed.

Lemma place_total ps file : forall t, plain ps -> is_Some (place ps file t).
Proof.
  induction ps as [|part rest IH]; intros t Hp; [done|].
  destruct rest as [|r rest]; [done|].
  apply plain_cons in Hp as [Hpart Hp]. rewrite place_step by done.
  destruct (IH (default emptyTree (get part (default [] (dirs t)))) Hp) as [sub ->].
  done.
Qed.

Lemma place_files ps file : forall t t' ds,
  plain ps -> place ps file t = Some t' ->
  filesAt t' ds =
    filesAt t ds ++ (if decide (ds = dirname ps) then entryFor ps file else []).
Proof.
  induction ps as [|part rest IH]; intros t t' ds Hp Hplace.
  - injection Hplace as <-. unfold entryFor. simpl.
    destruct (decide _); by rewrite app_nil_r.
  - destruct rest as [|part' rest'].
    + injection Hplace as <-.
      unfold filesAt, entryFor. simpl. destruct ds as [|d ds]; simpl.
      * done.
      * by rewrite app_nil_r.
    + apply plain_cons in Hp as [Hpart Hp]. rewrite place_step in Hplace by done.
      destruct (place (part' :: rest') file _) as [sub|] eqn:Hsub; [|done].
      injection Hplace as <-.
      change (dirname (part :: part' :: rest'))
        with (part :: dirname (part' :: rest')).
      change (entryFor (part :: part' :: rest') file)
        with (entryFor (part' :: rest') file).
      destruct ds as [|d ds].
      * rewrite decide_False by done. by rewrite app_nil_r.
      * unfold filesAt. rewrite !subtree_cons. cbn [dirs]; rewrite unfold_default_Some.
        destruct (decide (part = d)) as [->|Hne].
        -- rewrite get_set_eq.
           pose proof (IH _ _ ds Hp Hsub) as IH'.
           unfold filesAt in IH'. rewrite IH'.
           destruct (get d (default [] (dirs t))) as [sub0|]; simpl.
           ++ destruct (decide (ds = _)) as [->|N].
              ** by rewrite decide_True.
              ** rewrite decide_False; [done | by intros [= ?]].
           ++ pose proof (filesAt_empty ds) as E. unfold filesAt in E.
              change (Tree None None) with emptyTree. rewrite E. simpl.
              destruct (decide (ds = _)) as [->|N].
              ** by rewrite decide_True.
              ** rewrite decide_False; [done | by intros [= ?]].
        -- rewrite get_set_ne by done.
           rewrite decide_False by (by intros [= ?]). by rewrite app_nil_r.
Qed.

Lemma prefix_same_head (d : string) ds ps :
  d :: ds `prefix_of` d :: ps <-> ds `prefix_of` ps.
Proof. split; [apply prefix_cons_inv_2 | apply prefix_cons]. Qed.

Lemma place_dirs ps file : forall t t' ds,
  plain ps -> place ps file t = Some t' ->
  is_Some (subtree t' ds) <->
  is_Some (subtree t ds) \/ ds `prefix_of` dirname ps.
Proof.
  induction ps as [|part rest IH]; intros t t' ds Hp Hplace.
  - injection Hplace as <-. simpl. split; [by left|]. intros [H|H]; [done|].
    apply prefix_nil_inv in H as ->. done.
  - destruct rest as [|part' rest'].
    + injection Hplace as <-. simpl. destruct ds as [|d ds]; simpl.
      * split; [by left | done].
      * split; [by left|]. intros [H|H]; [done|]. by apply prefix_nil_inv in H.
    + apply plain_cons in Hp as [Hpart Hp]. rewrite place_step in Hplace by done.
      destruct (place (part' :: rest') file _) as [sub|] eqn:Hsub; [|done].
      injection Hplace as <-.
      change (dirname (part :: part' :: rest'))
        with (part :: dirname (part' :: rest')).
      destruct ds as [|d ds].
      * split; [by left | done].
      * rewrite !subtree_cons. cbn [dirs]; rewrite unfold_default_Some.
        destruct (decide (part = d)) as [->|Hne].
        -- rewrite get_set_eq, (IH _ _ ds Hp Hsub), prefix_same_head.
           destruct (get d (default [] (dirs t))) as [sub0|]; simpl; [done|].
           split.
           ++ intros [H|H]; [|by right]. apply subtree_empty in H as ->.
              right. apply prefix_nil.
           ++ intros [H|H]; [by destruct H | by right].
        -- rewrite get_set_ne by done. split; [by left|].
           intros [H|H]; [done|]. by apply prefix_cons_inv_1 in H.
Qed.

Lemma build_total (fs : list App.file) : forall t,
  plainDirectories fs -> is_Some (building fs (Some t)).
Proof.
  induction fs as [|file fs IH]; intros t Hp; [done|].
  apply Forall_cons_1 in Hp as [Hfile Hp]. cbn [fold_left].
  destruct (place_total (parts (App.path file)) file t Hfile) as [t1 ->].
  by apply IH.
Qed.

Lemma build_files (fs : list App.file) : forall t t' ds,
  plainDirectories fs -> building fs (Some t) = Some t' ->
  filesAt t' ds = filesAt t ds ++ filedUnder ds fs.
Proof.
  induction fs as [|file fs IH]; intros t t' ds Hp Hb.
  - injection Hb as <-. simpl. by rewrite app_nil_r.
  - apply Forall_cons_1 in Hp as [Hfile Hp]. cbn [fold_left] in Hb.
    destruct (place_total (parts (App.path file)) file t Hfile) as [t1 H1].
    rewrite H1 in Hb. rewrite (IH t1 t' ds Hp Hb), (place_files _ _ _ _ ds Hfile H1).
    simpl. by rewrite <- app_assoc.
Qed.

Lemma build_dirs (fs : list App.file) : forall t t' ds,
  plainDirectories fs -> building fs (Some t) = Some t' ->
  is_Some (subtree t' ds)
  <-> is_Some (subtree t ds) \/
      exists file, In file fs /\ ds `prefix_of` dirname (parts (App.path file)).
Proof.
  induction fs as [|file fs IH]; intros t t' ds Hp Hb.
  - injection Hb as <-. split; [by left|]. intros [H|(? & [] & _)]. done.
  - apply Forall_cons_1 in Hp as [Hfile Hp]. cbn [fold_left] in Hb.
    destruct (place_total (parts (App.path file)) file t Hfile) as [t1 H1].
    rewrite H1 in Hb. rewrite (IH t1 t' ds Hp Hb), (place_dirs _ _ _ _ ds Hfile H1).
    split.
    + intros [[H|H]|(f & Hin & H)]; [by left | right | right].
      * exists file. by split; [left|].
      * exists f. by split; [right|].
    + intros [H|(f & [<-|Hin] & H)]; [by left; left | by left; right | right].
      by exists f.
Qed.

Lemma prefix_dirname ds ps :
  ds <> [] ->
  ds `prefix_of` dirname ps <-> exists rest, rest <> [] /\ ps = ds ++ rest.
Proof.
  intros Hne. unfold dirname. split.
  - intros [k Hk]. destruct ps as [|p ps]; [by destruct ds|].
    exists (k ++ [List.last (p :: ps) ""]). split; [by destruct k|].
    rewrite app_assoc, <- Hk. by apply app_removelast_last.
  - intros (rest & Hrest & ->). rewrite removelast_app by done.
    by apply prefix_app_r.
Qed.

Lemma parts_nonempty (path_ : string) (p : string) : In p (parts path_) -> p <> "".
Proof. unfold parts. rewrite filter_In. intros [_ H] ->. done. Qed.

Lemma last_In {A} (l : list A) (x : A) : last l = Some x -> In x l.
Proof. rewrite last_Some. intros [l' ->]. apply in_or_app. right. by left. Qed.


(** C9 (amended): when no directory on the paths is named like a member
    every object inherits (constructor, toString, __proto__, ...), the
    tree is built, and in it a directory node exists exactly when some
    file's path goes through it, and it then holds a file somewhere
    below; the files listed at a node are exactly the files of the list
    whose path leads to that node and has a last segment, each as often
    and in the order it occurs in the list, under the name of that
    segment; no node or entry has an empty name. *)
Theorem tree_mirrors_paths (fs : list App.file) :
  plainDirectories fs ->
  exists t, buildFileTree fs = Some t /\
  (forall ds, ds <> [] ->
     (is_Some (subtree t ds) <-> exists file, In file fs /\ traverses file ds)) /\
  (forall ds, filesAt t ds = filedUnder ds fs) /\
  (forall ds, ds <> [] -> is_Some (subtree t ds) ->
     exists ds' e, In e (filesAt t (ds ++ ds'))) /\
  (forall ds, is_Some (subtree t ds) -> ~ In "" ds) /\
  (forall ds e, In e (filesAt t ds) -> name e <> "").
Proof.
  intros Hplain.
  destruct (build_total fs emptyTree Hplain) as [t Ht].
  exists t. split; [exact Ht|].
  assert (Hdirs : forall ds, ds <> [] ->
            (is_Some (subtree t ds) <-> exists file, In file fs /\ traverses file ds)).
  { intros ds Hne. rewrite (build_dirs fs emptyTree t ds Hplain Ht). split.
    - intros [H|(f & Hin & H)]; [by apply subtree_empty in H|].
      exists f. split; trivial. by apply prefix_dirname.
    - intros (f & Hin & H). right. exists f. split; trivial.
      by apply prefix_dirname. }
  assert (Hfiles : forall ds, filesAt t ds = filedUnder ds fs).
  { intros ds. by rewrite (build_files fs emptyTree t ds Hplain Ht), filesAt_empty. }
  split; [exact Hdirs|]. split; [exact Hfiles|]. split; [|split].
  - intros ds Hne Hsome. apply Hdirs in Hsome as (f & Hin & rest & Hrest & Hp); trivial.
    exists (removelast rest).
    destruct (last (parts (App.path f))) as [n|] eqn:El.
    2:{ apply last_None in El. rewrite El in Hp. by destruct ds. }
    exists (Entry n (App.path f) (App.size f) (App.modified f)).
    rewrite Hfiles. unfold filedUnder. apply in_flat_map. exists f. split; trivial.
    rewrite decide_True.
    + unfold entryFor. rewrite El. by left.
    + unfold dirname. rewrite Hp. by rewrite removelast_app.
  - intros ds Hsome Hin. destruct ds as [|d ds]; [done|].
    apply Hdirs in Hsome as (f & _ & rest & _ & Hp); [|done].
    apply (parts_nonempty (App.path f) ""); [|done].
    rewrite Hp. apply in_or_app. by left.
  - intros ds e. rewrite Hfiles. unfold filedUnder. rewrite in_flat_map.
    intros (f & _ & He). destruct (decide _); [|done].
    unfold entryFor in He. destruct (last (parts (App.path f))) as [n|] eqn:El; [|done].
    destruct He as [<-|[]]. simpl.
    apply (parts_nonempty (App.path f)). by apply last_In.
Qed.

(** C9 as stated fails: a file whose path has no segment is listed
    nowhere in the tree. *)
Lemma file_without_segments_dropped : ~ (forall fs, everyFileListed fs).
Proof.
  intros H.
  destruct (H [App.File "/" None None None] (App.File "/" None None None))
    as (t & ds & e & Ht & Hin & _); [by left|].
  injection Ht as <-.
  change (Tree None None) with emptyTree in Hin.
  by rewrite filesAt_empty in Hin.
Qed.

(* The entries stored in a tree, node by node. *)
Lemma entries_unfold (t : tree) :
  entries t = default [] (files t) ++ below (default [] (dirs t)).
Proof.
  destruct t as [fs [l|]]; cbn [entries files dirs default from_option id]; [|done].
  f_equal. unfold below. apply flat_map_ext. by intros [k sub].
Qed.

End TreeFacts.

(** C9 (amended), for two files in nested directories and one at the
    root. *)
Lemma tree_mirrors_paths_witness :
  exists t,
    FilePanel.buildFileTree
      [App.File "/report/r.md" None None None; App.File "/a.md" None None None;
       App.File "/report/draft/d.md" None None None] = Some t /\
    FilePanel.filesAt t ["report"] = [FilePanel.Entry "r.md" "/report/r.md" None None] /\
    is_Some (FilePanel.subtree t ["report"; "draft"]).
Proof.
  destruct (tree_mirrors_paths
              [App.File "/report/r.md" None None None; App.File "/a.md" None None None;
               App.File "/report/draft/d.md" None None None])
    as (t & Ht & Hdirs & Hfiles & _).
  - repeat constructor.
  - exists t. split; [exact Ht|]. split.
    + rewrite Hfiles. reflexivity.
    + apply Hdirs; [done|].
      exists (App.File "/report/draft/d.md" None None None). split.
      * right. right. by left.
      * exists ["d.md"]. split; [done | reflexivity].
Defined.


Section PathFacts.
Import Protocol FilePanel Browser.

Lemma split_nonempty (sep : ascii) (s : string) : split sep s <> [].
Proof.
  destruct s as [|c s]; [done|]. cbn [split].
  destruct (Ascii.eqb c sep); [done|]. by destruct (split sep s).
Qed.

Lemma append_empty (s : string) : String.append "" s = s.
Proof. reflexivity. Qed.

Lemma append_first (c : ascii) (a s : string) :
  String.append (String c a) s = String c (String.append a s).
Proof. reflexivity. Qed.

Lemma split_append (sep : ascii) (a b : string) :
  split sep (String.append a (String sep b)) = split sep a ++ split sep b.
Proof.
  induction a as [|c a IH]; rewrite ?append_empty, ?append_first; cbn [split].
  - by rewrite Ascii.eqb_refl.
  - destruct (Ascii.eqb c sep); [by rewrite IH|]. rewrite IH.
    pose proof (split_nonempty sep a). by destruct (split sep a).
Qed.

Lemma split_pieces (sep : ascii) (s piece : string) :
  In piece (split sep s) -> occurs sep piece = false.
Proof.
  revert piece. induction s as [|c s IH]; intros piece; cbn [split].
  - by intros [<-|[]].
  - destruct (Ascii.eqb c sep) eqn:E.
    + intros [<-|H]; [done | by apply IH].
    + pose proof (split_nonempty sep s).
      destruct (split sep s) as [|p ps]; [done|].
      intros [<-|H']; cbn [occurs].
      * rewrite E. apply IH. by left.
      * apply IH. by right.
Qed.

Lemma join_more (sep p q : string) (rest : list string) :
  join sep (p :: q :: rest) = String.append p (String.append sep (join sep (q :: rest))).
Proof. reflexivity. Qed.

Lemma split_join (sep : ascii) (s : string) :
  join (String sep EmptyString) (split sep s) = s.
Proof.
  induction s as [|c s IH]; [done|]. cbn [split].
  pose proof (split_nonempty sep s) as Hne.
  destruct (Ascii.eqb_spec c sep) as [->|N].
  - destruct (split sep s) as [|p ps]; [done|].
    by rewrite join_more, IH, append_empty, append_first, append_empty.
  - destruct (split sep s) as [|p ps]; [done|].
    destruct ps as [|q ps].
    + cbn [join] in *. by rewrite IH.
    + rewrite join_more in *. by rewrite append_first, IH.
Qed.

Lemma split_whole (sep : ascii) (s : string) :
  occurs sep s = false -> split sep s = [s].
Proof.
  induction s as [|c s IH]; [done|]. cbn [occurs split].
  destruct (Ascii.eqb c sep); [done|]. cbn [orb]. intros H. by rewrite (IH H).
Qed.

(** X21: splitting a string at a separator loses nothing and cuts at
    every separator: joining the pieces with the separator gives the
    string back, no piece contains the separator, and the pieces of
    [a + sep + b] are those of [a] followed by those of [b]. *)
Theorem split_round_trip (sep : ascii) (a b : string) :
  join (String sep EmptyString) (split sep a) = a /\
  (forall piece, In piece (split sep a) -> occurs sep piece = false) /\
  split sep (String.append a (String sep b)) = split sep a ++ split sep b.
Proof.
  split; [apply split_join|]. split; [apply split_pieces | apply split_append].
Qed.

Lemma parts_append (a b : string) :
  parts (String.append a (String "/" b)) = parts a ++ parts b.
Proof. unfold parts. by rewrite split_append, List.filter_app. Qed.

Lemma parts_segment (seg : string) :
  seg <> "" -> occurs "/" seg = false -> parts seg = [seg].
Proof.
  intros Hne Hocc. unfold parts. rewrite split_whole by done. cbn.
  by destruct seg.
Qed.

Lemma parts_join (segs : list string) :
  Forall (fun seg => seg <> "" /\ occurs "/" seg = false) segs ->
  parts (join "/" segs) = segs.
Proof.
  induction 1 as [|seg segs [Hne Hocc] Hsegs IH]; [done|].
  destruct segs as [|seg' segs].
  - by apply parts_segment.
  - rewrite join_more.
    change (String.append "/" (join "/" (seg' :: segs)))
      with (String "/" (join "/" (seg' :: segs))).
    by rewrite parts_append, parts_segment, IH.
Qed.

(** X22: the segments of a path are its non-empty pieces between slashes:
    none is empty or contains a slash, the segments of [a/b] are those
    of [a] followed by those of [b] (so leading, trailing and repeated
    slashes change nothing), and a path and its segments joined by
    single slashes have the same segments. *)
Theorem path_segments (a b : string) :
  (forall seg, In seg (parts a) -> seg <> "" /\ occurs "/" seg = false) /\
  parts (String.append a (String "/" b)) = parts a ++ parts b /\
  parts (String "/" a) = parts a /\
  parts (String.append a "/") = parts a /\
  parts (join "/" (parts a)) = parts a.
Proof.
  assert (Hsegs : forall seg, In seg (parts a) -> seg <> "" /\ occurs "/" seg = false).
  { intros seg Hin. split; [by apply (parts_nonempty a)|].
    unfold parts in Hin. apply filter_In in Hin as [Hin _].
    by apply (split_pieces _ a). }
  split; [exact Hsegs|]. split; [apply parts_append|]. split; [|split].
  - apply (parts_append "" a).
  - rewrite (parts_append a ""). apply app_nil_r.
  - apply parts_join. apply List.Forall_forall. intros seg Hin. by apply Hsegs.
Qed.
End PathFacts.

(* ===================================================================== *)
(* Properties of the rendered workspace.                                 *)
(* ===================================================================== *)

Section ViewFacts.
Import Protocol FilePanel Browser.
Variables localeLe codeUnitLe : string -> string -> bool.

(** X23: whether the rendered workspace shows a path highlighted: exactly
    when a file with that path is listed at the root of the tree and the
    highlight predicate holds for the path; what the directories hold
    plays no part. *)
Theorem root_file_highlighted (selectedFile : option App.file)
    (approvalContext : option action) (p : string) (t : tree) :
  existsb (showsHighlighted p)
    (renderFileTree localeLe codeUnitLe selectedFile approvalContext t)
  = existsb (fun f => String.eqb (path f) p) (default [] (files t))
    && isFileHighlighted approvalContext p.
Proof.
  unfold renderFileTree. rewrite existsb_app, !existsb_map, !existsb_sort.
  assert (Hdirs : existsb (fun kv : string * tree =>
                    showsHighlighted p
                      (DirectoryItem (fst kv) 0
                         (renderDirectoryChildren localeLe codeUnitLe (snd kv) 1)))
                    (default [] (dirs t)) = false).
  { induction (default [] (dirs t)) as [|kv l IHl]; [done|].
    cbn [existsb]. rewrite IHl, orb_false_r. cbn [showsHighlighted].
    apply directory_children_not_highlighted. }
  rewrite Hdirs, orb_false_l. cbn [showsHighlighted].
  induction (default [] (files t)) as [|f l IHl]; [done|].
  cbn [existsb]. rewrite IHl.
  destruct (String.eqb_spec (path f) p) as [E|N]; cbn [andb orb]; [|done].
  rewrite E. generalize (isFileHighlighted approvalContext p).
  generalize (existsb (fun f0 => String.eqb (path f0) p) l). by intros [] [].
Qed.

Lemma insert_perm {A} (le : A -> A -> bool) (x : A) (l : list A) :
  insert le x l ≡ₚ x :: l.
Proof.
  induction l as [|y l IH]; cbn [insert]; [done|].
  destruct (le y x); [|done]. rewrite IH. apply Permutation_swap.
Qed.

Lemma sort_perm {A} (le : A -> A -> bool) (l : list A) : sort le l ≡ₚ l.
Proof.
  unfold sort.
  assert (G : forall acc, fold_left (fun acc x => insert le x acc) l acc ≡ₚ acc ++ l).
  { induction l as [|x l IH]; intros acc; cbn [fold_left]; [by rewrite app_nil_r|].
    rewrite IH, insert_perm. apply Permutation_middle. }
  by rewrite G.
Qed.

Lemma flat_map_map {A B C} (f : B -> list C) (g : A -> B) (l : list A) :
  flat_map f (map g l) = flat_map (fun x => f (g x)) l.
Proof. induction l as [|x l IH]; cbn; [done|]. by rewrite IH. Qed.

Lemma flat_map_singleton {A B} (g : A -> B) (l : list A) :
  flat_map (fun x => [g x]) l = map g l.
Proof. induction l as [|x l IH]; cbn; [done|]. by rewrite IH. Qed.

(* What a directory shows is what its node holds. *)
Lemma directory_shows_entries (t : tree) :
  forall depth,
    flat_map shown (renderDirectoryChildren localeLe codeUnitLe t depth) ≡ₚ entries t.
Proof.
  induction t as [fs ds IH] using tree_induction. intros depth.
  rewrite entries_unfold. cbn [renderDirectoryChildren files dirs].
  rewrite flat_map_app, !flat_map_map. cbn [shown].
  rewrite flat_map_singleton, map_id, Permutation_app_comm.
  apply Permutation_app; [apply sort_perm|].
  rewrite (Permutation_flat_map _ (sort_perm _ _)).
  destruct ds as [l|]; [|done]. cbn [default from_option id] in *.
  rewrite flat_map_map. unfold below.
  induction l as [|[k sub] l IHl]; [done|].
  inversion IH as [|? ? Hsub Hl]; subst. cbn [flat_map fst snd] in *.
  by rewrite Hsub, IHl.
Qed.

Lemma panel_shows_entries (selectedFile : option App.file)
    (approvalContext : option action) (t : tree) :
  flat_map shown (renderFileTree localeLe codeUnitLe selectedFile approvalContext t)
  ≡ₚ entries t.
Proof.
  rewrite entries_unfold. unfold renderFileTree.
  rewrite flat_map_app, !flat_map_map. cbn [shown].
  rewrite flat_map_singleton, map_id, Permutation_app_comm.
  apply Permutation_app; [apply sort_perm|].
  rewrite (Permutation_flat_map _ (sort_perm _ _)). unfold below.
  induction (default [] (dirs t)) as [|[k sub] l IHl]; [done|].
  cbn [flat_map fst snd]. by rewrite directory_shows_entries, IHl.
Qed.

Lemma below_set (k : string) (sub : tree) (extra : list entry)
    (ds : list (string * tree)) :
  entries sub ≡ₚ entries (default emptyTree (get k ds)) ++ extra ->
  below (set k sub ds) ≡ₚ below ds ++ extra.
Proof.
  unfold below.
  induction ds as [|[k0 x] ds IH]; cbn [get set flat_map snd default from_option id];
    intros Hg.
  - by rewrite Hg, app_nil_r.
  - destruct (String.eqb k0 k); cbn [flat_map snd default from_option id] in *.
    + rewrite Hg. rewrite <- !app_assoc. apply Permutation_app_head, Permutation_app_comm.
    + rewrite IH by done. by rewrite app_assoc.
Qed.

Lemma place_entries (ps : list string) (file : App.file) :
  forall t t', plain ps -> place ps file t = Some t' ->
    entries t' ≡ₚ entries t ++ entryFor ps file.
Proof.
  induction ps as [|part rest IH]; intros t t' Hp Hplace.
  - injection Hplace as <-. cbn. by rewrite app_nil_r.
  - destruct rest as [|r rest].
    + injection Hplace as <-.
      rewrite !entries_unfold. cbn [files dirs default from_option id entryFor last].
      rewrite <- !app_assoc. apply Permutation_app_head, Permutation_app_comm.
    + apply plain_cons in Hp as [Hpart Hp]. rewrite place_step in Hplace by done.
      destruct (place (r :: rest) file _) as [sub|] eqn:Hsub; [|done].
      injection Hplace as <-.
      change (entryFor (part :: r :: rest) file) with (entryFor (r :: rest) file).
      rewrite !entries_unfold. cbn [files dirs].
      change (default [] (Some ?l)) with l.
      rewrite (below_set part sub (entryFor (r :: rest) file))
        by (by apply IH).
      by rewrite app_assoc.
Qed.

Lemma build_entries (fs : list App.file) :
  forall t t', plainDirectories fs ->
    fold_left (fun acc file =>
                 match acc with
                 | Some t => place (parts (App.path file)) file t
                 | None => None
                 end) fs (Some t) = Some t' ->
    entries t' ≡ₚ entries t ++ flat_map (fun file => entryFor (parts (App.path file)) file) fs.
Proof.
  induction fs as [|f fs IH]; intros t t' Hp Hb; cbn [fold_left flat_map] in *.
  - injection Hb as <-. by rewrite app_nil_r.
  - apply Forall_cons_1 in Hp as [Hfile Hp].
    destruct (place_total (parts (App.path f)) f t Hfile) as [t1 H1].
    rewrite H1 in Hb. rewrite (IH t1 t' Hp Hb), (place_entries _ _ _ _ Hfile H1).
    by rewrite app_assoc.
Qed.

(** X24: when no directory on the paths is named like a member every
    object inherits, the rendered workspace, directories expanded, shows
    the files of the list and nothing else: each file whose path has a
    segment is shown once, under its last segment as name and with its
    path, size and date; a file whose path has no segment is not
    shown. *)
Theorem workspace_shows_each_file_once (selectedFile : option App.file)
    (approvalContext : option action) (fs : list App.file) :
  plainDirectories fs ->
  exists t, buildFileTree fs = Some t /\
    flat_map shown (renderFileTree localeLe codeUnitLe selectedFile approvalContext t)
    ≡ₚ flat_map (fun file => entryFor (parts (App.path file)) file) fs.
Proof.
  intros Hplain. destruct (build_total fs emptyTree Hplain) as [t Ht].
  exists t. split; [exact Ht|].
  rewrite panel_shows_entries. by rewrite (build_entries fs emptyTree t Hplain Ht).
Qed.
End ViewFacts.

(** X24, for a file in a directory, a path without segment and a file at
    the root. *)
Lemma workspace_shows_each_file_once_witness :
  exists t,
    FilePanel.buildFileTree
      [App.File "/b/x.md" None None None; App.File "/" None None None;
       App.File "/a.md" None None None] = Some t /\
    flat_map Browser.shown
      (FilePanel.renderFileTree String.leb String.leb None None t)
    ≡ₚ [FilePanel.Entry "x.md" "/b/x.md" None None;
        FilePanel.Entry "a.md" "/a.md" None None].
Proof.
  apply (workspace_shows_each_file_once String.leb String.leb None None
           [App.File "/b/x.md" None None None; App.File "/" None None None;
            App.File "/a.md" None None None]).
  repeat constructor.
Defined.


(* ===================================================================== *)
(* Properties of language detection.                                     *)
(* ===================================================================== *)

Section LanguageFacts.
Import Protocol FilePanel Browser.

Lemma lower_dot (c : ascii) : Ascii.eqb (lower c) "." = Ascii.eqb c ".".
Proof. by destruct c as [[] [] [] [] [] [] [] []]. Qed.

Lemma lower_idempotent (c : ascii) : lower (lower c) = lower c.
Proof. by destruct c as [[] [] [] [] [] [] [] []]. Qed.

Lemma toLowerCase_idempotent (s : string) : toLowerCase (toLowerCase s) = toLowerCase s.
Proof.
  induction s as [|c s IH]; [done|]. cbn [toLowerCase].
  by rewrite lower_idempotent, IH.
Qed.

Lemma split_lower (s : string) :
  split "." (toLowerCase s) = map toLowerCase (split "." s).
Proof.
  induction s as [|c s IH]; [done|]. cbn [toLowerCase split].
  rewrite lower_dot, IH. pose proof (split_nonempty "." s) as Hne.
  destruct (Ascii.eqb c "."); [done|].
  by destruct (split "." s).
Qed.

Lemma last_map {A B} (f : A -> B) (l : list A) : last (map f l) = option_map f (last l).
Proof.
  induction l as [|x l IH]; [done|]. destruct l as [|y l]; [done|].
  exact IH.
Qed.

Lemma extension_lower (s : string) :
  default "" (last (split "." (toLowerCase s)))
  = toLowerCase (default "" (last (split "." s))).
Proof.
  rewrite split_lower, last_map. by destruct (last (split "." s)).
Qed.

Lemma extension_last (a ext : string) :
  occurs "." ext = false ->
  last (split "." (String.append a (String "." ext))) = Some ext.
Proof.
  intros Hocc. rewrite split_append, (split_whole "." ext) by done.
  apply last_snoc.
Qed.

(** X25: only the text after the last dot of a path decides the language:
    what comes before that dot changes nothing, and a path without a dot
    is taken as its own extension. *)
Theorem language_depends_on_extension (a ext : string) :
  occurs "." ext = false ->
  detectLanguage (String.append a (String "." ext)) = detectLanguage ext /\
  detectLanguage ext = lookupLanguage (toLowerCase ext).
Proof.
  intros Hocc. unfold detectLanguage.
  by rewrite extension_last, (split_whole "." ext) by done.
Qed.

(** X26: the language does not depend on the case of the letters A-Z in
    the path. *)
Theorem language_ignores_case (p q : string) :
  toLowerCase p = toLowerCase q -> detectLanguage p = detectLanguage q.
Proof.
  intros Hpq.
  assert (G : forall s, detectLanguage s = detectLanguage (toLowerCase s)).
  { intros s. unfold detectLanguage.
    by rewrite extension_lower, toLowerCase_idempotent. }
  by rewrite (G p), (G q), Hpq.
Qed.

(** X27: the language returned is one of the seven names of the map or
    [plaintext], unless the extension is [constructor] or [__proto__]:
    for these two, and for no other name, the lookup finds an inherited
    member of the map and returns it instead of a name. *)
Theorem language_is_a_name_unless_inherited (p a : string) :
  match detectLanguage p with
  | Language l =>
      In l ["markdown"; "plaintext"; "python"; "javascript"; "json"; "html"; "css"]
  | Member k => k = "constructor" \/ k = "__proto__"
  end /\
  detectLanguage (String.append a ".constructor") = Member "constructor" /\
  detectLanguage (String.append a ".__proto__") = Member "__proto__".
Proof.
  split.
  - unfold detectLanguage.
    pose proof (toLowerCase_idempotent (default "" (last (split "." p)))) as He.
    revert He. generalize (toLowerCase (default "" (last (split "." p)))).
    intros e He. unfold lookupLanguage, languageMap. cbn [get].
    repeat match goal with
           | |- context [if String.eqb ?k e then _ else _] => destruct (String.eqb k e)
           end; try (cbn [In]; auto 10; fail).
    destruct (existsb (String.eqb e) inheritedMembers) eqn:Hm; [|cbn [In]; auto 10].
    apply existsb_exists in Hm as (x & Hin & Hx).
    apply String.eqb_eq in Hx. subst x.
    unfold inheritedMembers in Hin. cbn [In] in Hin.
    repeat (destruct Hin as [<-|Hin]; [first [by left | by right | by vm_compute in He]|]).
    done.
  - unfold detectLanguage. by rewrite !extension_last.
Qed.
End LanguageFacts.

Lemma language_depends_on_extension_witness :
  Browser.detectLanguage "/notes/Risk.Summary.MD" = Browser.detectLanguage "MD" /\
  Browser.detectLanguage "MD" = Browser.Language "markdown".
Proof.
  apply (language_depends_on_extension "/notes/Risk.Summary" "MD"). reflexivity.
Defined.

Lemma language_ignores_case_witness :
  Browser.detectLanguage "/report/Final.JSON" = Browser.detectLanguage "/REPORT/FINAL.json".
Proof. apply language_ignores_case. reflexivity. Defined.
